(** * A verification development for HotSpot's NMT treap

    Source: [src/hotspot/share/nmt/nmtTreap.hpp], the class template
    [Treap<K, V, COMPARATOR, ALLOCATOR>].

    The C++ code works on heap-allocated [TreapNode]s linked by raw
    pointers, so the embedding keeps an explicit store of nodes (a finite
    map from addresses to node contents) and threads it through every
    function that dereferences or assigns a pointer:

    - dereferencing an address that is not allocated (a null, dangling or
      wild pointer) is undefined behaviour in C++ and yields [Fault];
    - recursion and loops over pointers take a [fuel] argument and yield
      [OutOfFuel] when it runs out; the theorems show that enough fuel always
      exists on well-formed trees;
    - [int] arithmetic that would overflow is undefined behaviour as well
      and yields [Fault];
    - the [assert]s (debug builds only) and [verify_self]'s depth check,
      which uses floating point, are not part of the model; the in-order
      pass and the depth-first pass of [verify_self] are modelled on their
      own.

    The file has the definitions first: the model of the code, the trees
    that a store holds (an inductive tree whose nodes remember their
    addresses) with the functions and predicates on them that the proofs
    use, and an instance with integer keys.  The lemmas and the properties
    of the container follow, and then the properties at concrete inputs. *)

From stdpp Require Import gmap list sorting.
From Stdlib Require Import ZArith Lia.

Local Open Scope Z_scope.
#[local] Set Warnings "-clear-no-such-hyp".

(** ** Results of running pointer code *)

Inductive result (A : Type) : Type :=
| Ok (a : A)
| Fault
| OutOfFuel.

Arguments Ok {A} a.
Arguments Fault {A}.
Arguments OutOfFuel {A}.

#[global] Instance result_ret : MRet result := @Ok.
#[global] Instance result_bind : MBind result :=
  λ A B f m, match m with
             | Ok a => f a
             | Fault => Fault
             | OutOfFuel => OutOfFuel
             end.

(** ** Machine integers *)

(** [int _node_count]: a 32-bit signed integer. *)
Definition INT_MAX : Z := 2147483647.
Definition INT_MIN : Z := -2147483648.

(** [i++] on an [int]: overflow is undefined behaviour. *)
Definition int_incr (i : Z) : result Z :=
  if i <? INT_MAX then Ok (i + 1) else Fault.

(** [i--] on an [int]. *)
Definition int_decr (i : Z) : result Z :=
  if INT_MIN <? i then Ok (i - 1) else Fault.

(** Addresses of nodes; [None] is [nullptr]. *)
Abbreviation loc := positive.
Abbreviation ptr := (option loc).

Inductive SplitMode := LT | LEQ.

Definition SplitMode_eqb (a b : SplitMode) : bool :=
  match a, b with
  | LT, LT | LEQ, LEQ => true
  | _, _ => false
  end.

(** [struct node_pair { TreapNode* left; TreapNode* right; }]. *)
Record node_pair := mk_node_pair { np_left : ptr; np_right : ptr }.

(** The template parameter [COMPARATOR]: its static function [cmp], which
    returns an [int] of which only the sign is used. *)
Class COMPARATOR (K : Type) := cmp : K → K → Z.

(** The contract of [COMPARATOR::cmp]: negative, zero or positive as [a] is
    below, equal to or above [b] in a total order of the keys. *)
Class ComparatorContract (K : Type) {cmp_inst : COMPARATOR K} : Prop := {
  cmp_eq : ∀ a b : K, cmp a b = 0 ↔ a = b;
  cmp_flip : ∀ a b : K, cmp a b < 0 ↔ 0 < cmp b a;
  cmp_trans : ∀ a b c : K, cmp a b < 0 → cmp b c < 0 → cmp a c < 0
}.

Section TreapModel.

(** The template parameters [K], [V] and [COMPARATOR]. *)
Context {K V : Type} {cmp_inst : COMPARATOR K}.

Record TreapNode := mk_TreapNode {
  _priority : Z;      (* uint64_t *)
  _key : K;
  _value : V;
  _left : ptr;
  _right : ptr
}.

Abbreviation heap := (gmap loc TreapNode).

(** The template parameter [ALLOCATOR]: [allocate] returns the address of
    storage for a node, given the storage in use. *)
Class ALLOCATOR := allocate : heap → loc.
Context {alloc_inst : ALLOCATOR}.

(** The contract of the allocator: the storage it returns is not in use. *)
Class AllocatorContract : Prop :=
  allocate_fresh : ∀ h : heap, h !! allocate h = None.

(** The container: the allocator's storage and the three data members. *)
Record Treap := mk_Treap {
  store : heap;
  _root : ptr;
  _prng_seed : Z;     (* uint64_t *)
  _node_count : Z     (* int *)
}.

(** *** Memory accesses *)

Definition load (h : heap) (a : loc) : result TreapNode :=
  match h !! a with
  | Some n => Ok n
  | None => Fault
  end.

(** [a->_left = p] *)
Definition set_left (h : heap) (a : loc) (p : ptr) : result heap :=
  n ← load h a;
  Ok (<[a := mk_TreapNode (_priority n) (_key n) (_value n) p (_right n)]> h).

(** [a->_right = p] *)
Definition set_right (h : heap) (a : loc) (p : ptr) : result heap :=
  n ← load h a;
  Ok (<[a := mk_TreapNode (_priority n) (_key n) (_value n) (_left n) p]> h).

(** [a->_value = v] *)
Definition set_value (h : heap) (a : loc) (v : V) : result heap :=
  n ← load h a;
  Ok (<[a := mk_TreapNode (_priority n) (_key n) v (_left n) (_right n)]> h).

(** [ALLOCATOR::free]: releasing storage that is not allocated is undefined. *)
Definition free (h : heap) (a : loc) : result heap :=
  match h !! a with
  | Some _ => Ok (delete a h)
  | None => Fault
  end.

(** *** The priority generator *)

Definition PrngMult : Z := 0x5DEECE66D.
Definition PrngAdd : Z := 0xB.
Definition PrngModPower : Z := 48.
Definition PrngModMask : Z := Z.shiftl 1 PrngModPower - 1.

(** One step of the generator on the seed, in [uint64_t] arithmetic. *)
Definition prng_step (seed : Z) : Z :=
  Z.land ((PrngMult * seed + PrngAdd) mod 2 ^ 64) PrngModMask.

(** [prng_next()]: stores the new seed and returns it. *)
Definition prng_next (t : Treap) : Z * Treap :=
  let s := prng_step (_prng_seed t) in
  (s, mk_Treap (store t) (_root t) s (_node_count t)).

(** *** split, merge, find

    The parameter [recur_count] and the assertion on it exist in debug
    builds only and are left out. *)

Fixpoint split (fuel : nat) (h : heap) (head : ptr) (key : K) (mode : SplitMode)
  : result (heap * node_pair) :=
  match fuel with
  | O => OutOfFuel
  | S fuel =>
    match head with
    | None => Ok (h, mk_node_pair None None)
    | Some a =>
      n ← load h a;
      if ((cmp (_key n) key <=? 0) && SplitMode_eqb mode LEQ)
         || ((cmp (_key n) key <? 0) && SplitMode_eqb mode LT)
      then
        '(h1, p) ← split fuel h (_right n) key mode;
        h2 ← set_right h1 a (np_left p);
        Ok (h2, mk_node_pair (Some a) (np_right p))
      else
        '(h1, p) ← split fuel h (_left n) key mode;
        h2 ← set_left h1 a (np_right p);
        Ok (h2, mk_node_pair (np_left p) (Some a))
    end
  end.

Fixpoint merge (fuel : nat) (h : heap) (left right : ptr) : result (heap * ptr) :=
  match fuel with
  | O => OutOfFuel
  | S fuel =>
    match left, right with
    | None, _ => Ok (h, right)
    | _, None => Ok (h, left)
    | Some l, Some r =>
      ln ← load h l;
      rn ← load h r;
      if _priority ln >? _priority rn then
        '(h1, m) ← merge fuel h (_right ln) right;
        h2 ← set_right h1 l m;
        Ok (h2, Some l)
      else
        '(h1, m) ← merge fuel h left (_left rn);
        h2 ← set_left h1 r m;
        Ok (h2, Some r)
    end
  end.

Fixpoint find (fuel : nat) (h : heap) (node : ptr) (k : K) : result ptr :=
  match fuel with
  | O => OutOfFuel
  | S fuel =>
    match node with
    | None => Ok None
    | Some a =>
      n ← load h a;
      let key_cmp_k := cmp (_key n) k in
      if key_cmp_k =? 0 then Ok (Some a)
      else if key_cmp_k <? 0 then find fuel h (_right n) k
      else find fuel h (_left n) k
    end
  end.

(** *** The public operations *)

(** [upsert] and [remove] start with a call of [verify_self], which exists
    in debug builds only and does nothing but assert; the call is left out. *)

(** The constructor [Treap(seed)]; [h] is the allocator's storage at that time. *)
Definition Treap_new (h : heap) (seed : Z) : Treap :=
  mk_Treap h None seed 0.

Definition upsert (fuel : nat) (t : Treap) (k : K) (v : V) : result Treap :=
  found ← find fuel (store t) (_root t) k;
  match found with
  | Some a =>
    (* Already exists, update value. *)
    h ← set_value (store t) a v;
    Ok (mk_Treap h (_root t) (_prng_seed t) (_node_count t))
  | None =>
    count ← int_incr (_node_count t);
    (* Doesn't exist, make node *)
    let node_place := allocate (store t) in
    let '(prio, t) := prng_next t in
    let h := <[node_place := mk_TreapNode prio k v None None]> (store t) in
    let node := Some node_place in
    '(h, split_up) ← split fuel h (_root t) k LEQ;
    '(h, m) ← merge fuel h (np_left split_up) node;
    '(h, r) ← merge fuel h m (np_right split_up);
    Ok (mk_Treap h r (_prng_seed t) count)
  end.

Definition remove (fuel : nat) (t : Treap) (k : K) : result Treap :=
  '(h, first_split) ← split fuel (store t) (_root t) k LEQ;
  '(h, second_split) ← split fuel h (np_left first_split) k LT;
  '(h, count) ←
    match np_right second_split with
    | Some a =>
      (* The key k existed, we delete it. *)
      count ← int_decr (_node_count t);
      h ← free h a;
      Ok (h, count)
    | None => Ok (h, _node_count t)
    end;
  '(h, r) ← merge fuel h (np_left second_split) (np_right first_split);
  Ok (mk_Treap h r (_prng_seed t) count).

(** The loop of [remove_all]; [to_delete] is the work-list, top first. *)
Fixpoint remove_all_loop (fuel : nat) (h : heap) (to_delete : list ptr) : result heap :=
  match fuel with
  | O => OutOfFuel
  | S fuel =>
    match to_delete with
    | [] => Ok h
    | None :: to_delete => remove_all_loop fuel h to_delete
    | Some head :: to_delete =>
      n ← load h head;
      let to_delete := _right n :: _left n :: to_delete in
      h ← free h head;
      remove_all_loop fuel h to_delete
    end
  end.

(** [remove_all()]: [_node_count] is reset, the nodes are released; there is
    no assignment to [_root]. *)
Definition remove_all (fuel : nat) (t : Treap) : result Treap :=
  h ← remove_all_loop fuel (store t) [_root t];
  Ok (mk_Treap h (_root t) (_prng_seed t) 0).

Fixpoint closest_leq_loop (fuel : nat) (h : heap) (candidate pos : ptr) (key : K)
  : result ptr :=
  match fuel with
  | O => OutOfFuel
  | S fuel =>
    match pos with
    | None => Ok candidate
    | Some a =>
      n ← load h a;
      let cmp_r := cmp (_key n) key in
      if cmp_r =? 0 then Ok (Some a)
      else if cmp_r <? 0 then closest_leq_loop fuel h (Some a) (_right n) key
      else if cmp_r >? 0 then closest_leq_loop fuel h candidate (_left n) key
      else closest_leq_loop fuel h candidate pos key
    end
  end.

Definition closest_leq (fuel : nat) (t : Treap) (key : K) : result ptr :=
  closest_leq_loop fuel (store t) None (_root t) key.

(** *** Traversals

    The visitor [f] is called with the node's address; what it computes is
    threaded through the calls as a value of type [A].  [to_visit] is the
    explicit stack, top first. *)

Section Visit.
Context {A : Type}.
Variable f : A → loc → result A.

(** [while (head != nullptr) { to_visit.push(head); head = head->left(); }] *)
Fixpoint push_left_spine (fuel : nat) (h : heap) (to_visit : list loc) (head : ptr)
  : result (list loc) :=
  match fuel with
  | O => OutOfFuel
  | S fuel =>
    match head with
    | None => Ok to_visit
    | Some a =>
      n ← load h a;
      push_left_spine fuel h (a :: to_visit) (_left n)
    end
  end.

Fixpoint visit_in_order_loop (fuel : nat) (h : heap) (acc : A)
    (to_visit : list loc) (head : ptr) : result A :=
  match fuel with
  | O => OutOfFuel
  | S fuel =>
    if negb (bool_decide (to_visit = [])) || bool_decide (head ≠ None) then
      to_visit ← push_left_spine fuel h to_visit head;
      match to_visit with
      | [] => Fault (* pop() of an empty array *)
      | head :: to_visit =>
        acc ← f acc head;
        n ← load h head;
        visit_in_order_loop fuel h acc to_visit (_right n)
      end
    else Ok acc
  end.

Definition visit_in_order (fuel : nat) (t : Treap) (acc : A) : result A :=
  visit_in_order_loop fuel (store t) acc [] (_root t).

(** The inner loop of [visit_range_in_order], which stops at the first node
    whose key is below [from]. *)
Fixpoint push_left_spine_from (fuel : nat) (h : heap) (from : K)
    (to_visit : list loc) (head : ptr) : result (list loc) :=
  match fuel with
  | O => OutOfFuel
  | S fuel =>
    match head with
    | None => Ok to_visit
    | Some a =>
      n ← load h a;
      let cmp_from := cmp (_key n) from in
      let to_visit := a :: to_visit in
      if cmp_from >=? 0 then push_left_spine_from fuel h from to_visit (_left n)
      else Ok to_visit
    end
  end.

Fixpoint visit_range_in_order_loop (fuel : nat) (h : heap) (from to : K) (acc : A)
    (to_visit : list loc) (head : ptr) : result A :=
  match fuel with
  | O => OutOfFuel
  | S fuel =>
    if negb (bool_decide (to_visit = [])) || bool_decide (head ≠ None) then
      to_visit ← push_left_spine_from fuel h from to_visit head;
      match to_visit with
      | [] => Fault
      | head :: to_visit =>
        n ← load h head;
        let cmp_from := cmp (_key n) from in
        let cmp_to := cmp (_key n) to in
        acc ← (if (cmp_from >=? 0) && (cmp_to <? 0) then f acc head else Ok acc);
        if cmp_to <? 0
        then visit_range_in_order_loop fuel h from to acc to_visit (_right n)
        else visit_range_in_order_loop fuel h from to acc to_visit None
      end
    else Ok acc
  end.

Definition visit_range_in_order (fuel : nat) (t : Treap) (from to : K) (acc : A)
  : result A :=
  visit_range_in_order_loop fuel (store t) from to acc [] (_root t).

End Visit.

(** The visitor that records the nodes it is given, in the order of the calls. *)
Definition record_node (acc : list loc) (a : loc) : result (list loc) :=
  Ok (acc ++ [a]).

(** *** The in-order pass of [verify_self] *)

Record key_check := mk_key_check {
  last_seen : ptr;
  failed : bool;
  seen_count : Z   (* int *)
}.

(** The lambda given to [visit_in_order]. *)
Definition key_check_visit (h : heap) (st : key_check) (node : loc) : result key_check :=
  count ← int_incr (seen_count st);
  match last_seen st with
  | None => Ok (mk_key_check (Some node) (failed st) count)
  | Some last =>
    ln ← load h last;
    n ← load h node;
    let failed := if cmp (_key ln) (_key n) >? 0 then false else failed st in
    Ok (mk_key_check (Some node) failed count)
  end.

(** The state of [last_seen], [failed] and [seen_count] when the traversal
    of [verify_self] ends, just before its last two assertions. *)
Definition verify_self_in_order (fuel : nat) (t : Treap) : result key_check :=
  visit_in_order (key_check_visit (store t)) fuel t (mk_key_check None false 0).

(** *** The depth-first pass of [verify_self]

    The first loop of [verify_self] finds the largest depth of a node and
    asserts at every node that its priority is at most its parent's.  A
    failed assertion ends the program: the pass then has no depth to give,
    which is the result [None].  The fields of [struct DFS] carry a prefix. *)

Definition positive_infinity : Z := 0xFFFFFFFFFFFFFFFF.

Record DFS := mk_DFS {
  dfs_depth : Z;         (* int *)
  dfs_parent_prio : Z;   (* uint64_t *)
  dfs_n : ptr
}.

Fixpoint verify_self_dfs_loop (fuel : nat) (h : heap) (maximum_depth_found : Z)
    (to_visit : list DFS) : result (option Z) :=
  match fuel with
  | O => OutOfFuel
  | S fuel =>
    match to_visit with
    | [] => Ok (Some maximum_depth_found)
    | head :: to_visit =>
      match dfs_n head with
      | None => verify_self_dfs_loop fuel h maximum_depth_found to_visit
      | Some a =>
        let maximum_depth_found := Z.max maximum_depth_found (dfs_depth head) in
        n ← load h a;
        if dfs_parent_prio head >=? _priority n then
          d ← int_incr (dfs_depth head);
          let to_visit := mk_DFS d (_priority n) (_left n) :: to_visit in
          let to_visit := mk_DFS d (_priority n) (_right n) :: to_visit in
          verify_self_dfs_loop fuel h maximum_depth_found to_visit
        else Ok None (* broken priority invariant *)
      end
    end
  end.

(** [maximum_depth_found] when the loop ends, or [None] when the assertion
    on the priorities fails. *)
Definition verify_self_dfs (fuel : nat) (t : Treap) : result (option Z) :=
  verify_self_dfs_loop fuel (store t) 0 [mk_DFS 0 positive_infinity (_root t)].

(** *** Sequences of operations *)

Inductive operation : Type :=
| Upsert (k : K) (v : V)
| Remove (k : K)
| Find (k : K)
| ClosestLeq (k : K)
| VisitInOrder
| VisitRangeInOrder (from to : K).

(** One call on the container; a query leaves the container as it is. *)
Definition exec (fuel : nat) (op : operation) (t : Treap) : result Treap :=
  match op with
  | Upsert k v => upsert fuel t k v
  | Remove k => remove fuel t k
  | Find k => _ ← find fuel (store t) (_root t) k; Ok t
  | ClosestLeq k => _ ← closest_leq fuel t k; Ok t
  | VisitInOrder => _ ← visit_in_order record_node fuel t []; Ok t
  | VisitRangeInOrder from to =>
    _ ← visit_range_in_order record_node fuel t from to []; Ok t
  end.

Fixpoint run (fuel : nat) (ops : list operation) (t : Treap) : result Treap :=
  match ops with
  | [] => Ok t
  | op :: ops => t ← exec fuel op t; run fuel ops t
  end.



(** ** The tree a store holds

    A [tree] is the shape of the nodes reachable from a pointer, each node
    with its address.  [lays h t] says that the store [h] holds [t]: every
    node of [t] is allocated at its address with the contents and the child
    pointers that [t] gives it. *)

Inductive tree : Type :=
| Leaf
| Node (a : loc) (p : Z) (k : K) (v : V) (l r : tree).

Definition ptr_of (t : tree) : ptr :=
  match t with
  | Leaf => None
  | Node a _ _ _ _ _ => Some a
  end.

Fixpoint lays (h : heap) (t : tree) : Prop :=
  match t with
  | Leaf => True
  | Node a p k v l r =>
    h !! a = Some (mk_TreapNode p k v (ptr_of l) (ptr_of r)) ∧ lays h l ∧ lays h r
  end.

(** Addresses, keys and entries of a tree, in order. *)
Fixpoint addrs (t : tree) : list loc :=
  match t with
  | Leaf => []
  | Node a _ _ _ l r => addrs l ++ a :: addrs r
  end.

Fixpoint keys (t : tree) : list K :=
  match t with
  | Leaf => []
  | Node _ _ k _ l r => keys l ++ k :: keys r
  end.

Fixpoint entries (t : tree) : list (K * V) :=
  match t with
  | Leaf => []
  | Node _ _ k v l r => entries l ++ (k, v) :: entries r
  end.

Fixpoint height (t : tree) : nat :=
  match t with
  | Leaf => 0
  | Node _ _ _ _ l r => S (Nat.max (height l) (height r))
  end.

Definition size (t : tree) : nat := length (addrs t).

(** The order on keys that [cmp] decides. *)
Definition key_lt (a b : K) : Prop := cmp a b < 0.

(** Invariants 1 and 3: a search tree with unique keys. *)
Fixpoint bst (t : tree) : Prop :=
  match t with
  | Leaf => True
  | Node _ _ k _ l r =>
    Forall (λ x, key_lt x k) (keys l) ∧ Forall (λ x, key_lt k x) (keys r)
    ∧ bst l ∧ bst r
  end.

(** Invariant 2: no node has a larger priority than its parent. *)
Definition prio_le (t : tree) (p : Z) : Prop :=
  match t with
  | Leaf => True
  | Node _ q _ _ _ _ => q ≤ p
  end.

Fixpoint heap_ord (t : tree) : Prop :=
  match t with
  | Leaf => True
  | Node _ p _ _ l r => prio_le l p ∧ prio_le r p ∧ heap_ord l ∧ heap_ord r
  end.



(** The container [c] holds the tree [t]. *)
Definition represents (c : Treap) (t : tree) : Prop :=
  _root c = ptr_of t ∧ lays (store c) t ∧ NoDup (addrs t).

(** The invariants of the data model, for a container that holds [t]. *)
Definition valid (c : Treap) (t : tree) : Prop :=
  represents c t ∧ bst t ∧ heap_ord t ∧ _node_count c = Z.of_nat (size t).



Fixpoint find_tree (t : tree) (k : K) : tree :=
  match t with
  | Leaf => Leaf
  | Node _ _ key _ l r =>
    if cmp key k =? 0 then t
    else if cmp key k <? 0 then find_tree r k
    else find_tree l k
  end.

Fixpoint closest_leq_tree (candidate : ptr) (t : tree) (key : K) : ptr :=
  match t with
  | Leaf => candidate
  | Node a _ k _ l r =>
    if cmp k key =? 0 then Some a
    else if cmp k key <? 0 then closest_leq_tree (Some a) r key
    else closest_leq_tree candidate l key
  end.

(** The nodes of a tree in order, each as its address and its key. *)
Fixpoint nodes (t : tree) : list (loc * K) :=
  match t with
  | Leaf => []
  | Node a _ k _ l r => nodes l ++ (a, k) :: nodes r
  end.

(** ** The finite map that a run of operations describes

    The entries of a finite map, as a relation between keys and values:
    [map_step op m] are the entries after the operation [op] when [m] are the
    entries before it.  [upsert] sets the value of its key, [remove] drops
    its key, a query changes nothing. *)



(** ** Definitions for the proofs *)


(** The calls of a visitor, one after the other, on a list of nodes. *)
Fixpoint visit_all {A : Type} (f : A → loc → result A) (acc : A) (l : list loc)
  : result A :=
  match l with
  | [] => Ok acc
  | a :: l => acc ← f acc a; visit_all f acc l
  end.

(** An entry of the explicit stack: a pushed node and the right subtree that
    is visited after it.  [pending_addrs] lists what the entries of a stack
    still stand for. *)
Fixpoint pending_addrs (pend : list (loc * tree)) : list loc :=
  match pend with
  | [] => []
  | (a, r) :: pend => a :: addrs r ++ pending_addrs pend
  end.

Definition pending_ok (h : heap) (e : loc * tree) : Prop :=
  (∃ n, h !! e.1 = Some n ∧ _right n = ptr_of e.2) ∧ lays h e.2.

Fixpoint left_spine (t : tree) : list (loc * tree) :=
  match t with
  | Leaf => []
  | Node a _ _ _ l r => left_spine l ++ [(a, r)]
  end.

(** The half-open interval of [visit_range_in_order]. *)
Definition in_range (from to k : K) : Prop := 0 ≤ cmp k from ∧ cmp k to < 0.

#[global] Instance in_range_dec (from to k : K) : Decision (in_range from to k).
Proof. unfold in_range. apply _. Defined.

(** The addresses of the nodes with a key in the interval, in order. *)
Fixpoint range_addrs (from to : K) (t : tree) : list loc :=
  match t with
  | Leaf => []
  | Node a _ k _ l r =>
    range_addrs from to l
    ++ (if decide (in_range from to k) then [a] else [])
    ++ range_addrs from to r
  end.

(** What the entries of the stack of the bounded traversal still stand for. *)
Fixpoint pending_range (from to : K) (pend : list (loc * K * tree)) : list loc :=
  match pend with
  | [] => []
  | (a, k, r) :: pend =>
    (if decide (in_range from to k) then [a] else [])
    ++ (if cmp k to <? 0 then range_addrs from to r else [])
    ++ pending_range from to pend
  end.

Fixpoint pending_size (pend : list (loc * K * tree)) : nat :=
  match pend with
  | [] => 0
  | (_, _, r) :: pend => S (size r + pending_size pend)
  end.

Definition range_entry_ok (h : heap) (e : loc * K * tree) : Prop :=
  (∃ n, h !! e.1.1 = Some n ∧ _key n = e.1.2 ∧ _right n = ptr_of e.2)
  ∧ lays h e.2 ∧ bst e.2.

Fixpoint spine_from (from : K) (t : tree) : list (loc * K * tree) :=
  match t with
  | Leaf => []
  | Node a _ k _ l r =>
    if cmp k from >=? 0 then spine_from from l ++ [(a, k, r)] else [(a, k, r)]
  end.

(** The addresses of the trees on the work-list. *)
Fixpoint forest_addrs (ts : list tree) : list loc :=
  match ts with
  | [] => []
  | t :: ts => addrs t ++ forest_addrs ts
  end.

Fixpoint forest_cost (ts : list tree) : nat :=
  match ts with
  | [] => 0
  | t :: ts => S (2 * size t + forest_cost ts)
  end.








(** The nodes of a tree in order, each with its address, priority, key and
    value. *)
Fixpoint cells (t : tree) : list (loc * Z * K * V) :=
  match t with
  | Leaf => []
  | Node a p k v l r => cells l ++ (a, p, k, v) :: cells r
  end.

(** An entry of the work-list of the depth-first pass of [verify_self]: the
    depth, the parent's priority and the tree that the pointer stands for. *)
Definition dfs_entry (e : Z * Z * tree) : DFS := mk_DFS e.1.1 e.1.2 (ptr_of e.2).

Definition dfs_entry_ok (e : Z * Z * tree) : Prop := prio_le e.2 e.1.2 ∧ heap_ord e.2.

(** The largest depth of a node of the trees on the work-list, or [m]. *)
Fixpoint dfs_deepest (m : Z) (ws : list (Z * Z * tree)) : Z :=
  match ws with
  | [] => m
  | (d, _, t) :: ws =>
    dfs_deepest (match t with
                 | Leaf => m
                 | Node _ _ _ _ _ _ => Z.max m (d + Z.of_nat (height t) - 1)
                 end) ws
  end.

End TreapModel.

Arguments TreapNode : clear implicits.
Arguments Treap : clear implicits.
Arguments operation : clear implicits.
Arguments tree : clear implicits.
Arguments ALLOCATOR : clear implicits.
Arguments AllocatorContract K V {alloc_inst}.

(** ** An instance: integer keys and values *)

(** A comparator on [Z] and an allocator that returns an address not in use. *)
#[global] Instance Z_cmp : COMPARATOR Z :=
  λ a b, match a ?= b with
         | Lt => -1
         | Eq => 0
         | Gt => 1
         end.

#[global] Instance next_free : ALLOCATOR Z Z := λ h, fresh (dom h).

(** The keys 10, 20 and 30, with 20 at the root. *)
Definition demo_tree : tree Z Z :=
  Node 1 90 20 200 (Node 2 50 10 100 Leaf Leaf) (Node 3 30 30 300 Leaf Leaf).

Definition demo_store : gmap loc (TreapNode Z Z) :=
  <[1%positive := mk_TreapNode 90 20 200 (Some 2%positive) (Some 3%positive)]>
  (<[2%positive := mk_TreapNode 50 10 100 None None]>
  (<[3%positive := mk_TreapNode 30 30 300 None None]> ∅)).

Definition demo : Treap Z Z := mk_Treap demo_store (Some 1%positive) 7 3.

(** The keys 5, 10, 20, 30 and 40, as five calls of [upsert] on an empty
    container with seed 42 lay them out. *)
Definition range_tree : tree Z Z :=
  Node 3 259172689157871 20 200
    (Node 2 197491923327988 10 100 (Node 1 1059025964525 5 50 Leaf Leaf) Leaf)
    (Node 4 149370390209998 30 300 Leaf (Node 5 115998806404289 40 400 Leaf Leaf)).

Definition range_store : gmap loc (TreapNode Z Z) :=
  <[1%positive := mk_TreapNode 1059025964525 5 50 None None]>
  (<[2%positive := mk_TreapNode 197491923327988 10 100 (Some 1%positive) None]>
  (<[3%positive :=
       mk_TreapNode 259172689157871 20 200 (Some 2%positive) (Some 4%positive)]>
  (<[4%positive := mk_TreapNode 149370390209998 30 300 None (Some 5%positive)]>
  (<[5%positive := mk_TreapNode 115998806404289 40 400 None None]> ∅)))).

Definition range_demo : Treap Z Z :=
  mk_Treap range_store (Some 3%positive) 115998806404289 5.




(** A store whose keys are out of order: the root holds 1, its left child 5. *)
Definition unsorted : Treap Z Z :=
  mk_Treap (<[1%positive := mk_TreapNode 9 1 10 (Some 2%positive) None]>
            (<[2%positive := mk_TreapNode 5 5 50 None None]> ∅))
           (Some 1%positive) 7 2.

(** A store whose priorities are out of order: the root has the priority 5,
    its left child the priority 9. *)
Definition inverted : Treap Z Z :=
  mk_Treap (<[1%positive := mk_TreapNode 5 20 200 (Some 2%positive) None]>
            (<[2%positive := mk_TreapNode 9 10 100 None None]> ∅))
           (Some 1%positive) 7 2.

(** Closed decidable facts, by evaluation. *)
Ltac by_compute := apply (bool_decide_unpack _); vm_compute; exact I.

Tactic Notation "drop" ident(x) := try clear x.

(** [set_solver] and its kin work on every hypothesis in sight, which counts
    as a use of the assumptions of the section; [hide_vars] first removes the
    assumptions that nothing in the goal depends on. *)
Ltac hide_vars :=
  drop alloc_ok; drop alloc_inst; drop cmp_ok; drop cmp_inst.

Ltac list_solver := hide_vars; set_solver.

Section TreapProofs.
Set Default Proof Using "Type".

Context {K V : Type} {cmp_inst : COMPARATOR K} {alloc_inst : ALLOCATOR K V}.
Context {cmp_ok : ComparatorContract K} {alloc_ok : AllocatorContract K V}.

#[local] Abbreviation TreapNode := (TreapNode K V).
#[local] Abbreviation Treap := (Treap K V).
#[local] Abbreviation operation := (operation K V).
#[local] Abbreviation tree := (tree K V).
#[local] Abbreviation heap := (gmap loc TreapNode).

(** ** Stores and trees *)

Lemma fst_nodes (t : tree) : (nodes t).*1 = addrs t.
Proof.
  induction t as [|a p k v l IHl r IHr]; simpl; [done|].
  by rewrite fmap_app, fmap_cons, IHl, IHr.
Qed.

Lemma snd_nodes (t : tree) : (nodes t).*2 = keys t.
Proof.
  induction t as [|a p k v l IHl r IHr]; simpl; [done|].
  by rewrite fmap_app, fmap_cons, IHl, IHr.
Qed.

Lemma fst_entries (t : tree) : (entries t).*1 = keys t.
Proof.
  induction t as [|a p k v l IHl r IHr]; simpl; [done|].
  by rewrite fmap_app, fmap_cons, IHl, IHr.
Qed.

Lemma elem_of_nodes_addrs (t : tree) (a : loc) (k : K) :
  (a, k) ∈ nodes t → a ∈ addrs t.
Proof. intros Hin. rewrite <- fst_nodes. by apply (list_elem_of_fmap_2 fst) in Hin. Qed.

Lemma elem_of_nodes_keys (t : tree) (a : loc) (k : K) :
  (a, k) ∈ nodes t → k ∈ keys t.
Proof. intros Hin. rewrite <- snd_nodes. by apply (list_elem_of_fmap_2 snd) in Hin. Qed.

(** A node of the tree is in the store, with its key. *)
Lemma lays_node (t : tree) (h : heap) (a : loc) (k : K) :
  lays h t → (a, k) ∈ nodes t → ∃ n, h !! a = Some n ∧ _key n = k.
Proof.
  induction t as [|b p kb v l IHl r IHr]; simpl; [list_solver|].
  intros (Hb & Hl & Hr) Hin.
  apply elem_of_app in Hin as [Hin|Hin]; [by apply IHl|].
  apply elem_of_cons in Hin as [[= -> ->]|Hin]; [by eexists|by apply IHr].
Qed.

Lemma size_height (t : tree) : (height t ≤ size t)%nat.
Proof.
  unfold size. induction t as [|a p k v l IHl r IHr]; simpl; [done|].
  rewrite length_app. simpl. lia.
Qed.

Lemma lays_frame (t : tree) (h h' : heap) :
  lays h t → (∀ a, a ∈ addrs t → h' !! a = h !! a) → lays h' t.
Proof.
  induction t as [|a p k v l IHl r IHr]; simpl; [done|].
  intros (Ha & Hl & Hr) Hsame. split_and!.
  - rewrite Hsame; [done|]. list_solver.
  - apply IHl; [done|]. intros b Hb. apply Hsame. list_solver.
  - apply IHr; [done|]. intros b Hb. apply Hsame. list_solver.
Qed.


Lemma lays_allocated (t : tree) (h : heap) (a : loc) :
  lays h t → a ∈ addrs t → is_Some (h !! a).
Proof.
  induction t as [|b p k v l IHl r IHr]; simpl; [list_solver|].
  intros (Hb & Hl & Hr) Ha.
  apply elem_of_app in Ha as [Ha|Ha]; [by apply IHl|].
  apply elem_of_cons in Ha as [->|Ha]; [by eexists|by apply IHr].
Qed.















(** ** The order of the keys *)

Lemma cmp_refl (a : K) : cmp a a = 0.
Proof using cmp_inst cmp_ok. by apply cmp_eq. Qed.

Lemma key_lt_irrefl (a : K) : ¬ key_lt a a.
Proof using cmp_inst cmp_ok. unfold key_lt. rewrite cmp_refl. lia. Qed.

Lemma key_lt_trans (a b c : K) : key_lt a b → key_lt b c → key_lt a c.
Proof using cmp_inst cmp_ok. apply cmp_trans. Qed.

Lemma key_lt_asym (a b : K) : key_lt a b → ¬ key_lt b a.
Proof using cmp_inst cmp_ok. intros H1 H2. apply (key_lt_irrefl a). by apply (key_lt_trans a b a). Qed.

Lemma cmp_pos_lt (a b : K) : 0 < cmp a b ↔ key_lt b a.
Proof using cmp_inst cmp_ok. unfold key_lt. by rewrite cmp_flip. Qed.

Lemma cmp_le_inv (a b : K) : cmp a b ≤ 0 ↔ key_lt a b ∨ a = b.
Proof using cmp_inst cmp_ok.
  unfold key_lt. rewrite <- cmp_eq. lia.
Qed.






(** ** The invariants under split and merge *)










(** ** find and closest_leq *)

Lemma find_spec (t : tree) (h : heap) (k : K) (fuel : nat) :
  lays h t → (height t < fuel)%nat →
  find fuel h (ptr_of t) k = Ok (ptr_of (find_tree t k)).
Proof.
  revert fuel. induction t as [|a p key v l IHl r IHr]; intros fuel Hlay Hfuel.
  - destruct fuel; [lia|]. done.
  - destruct fuel; [simpl in Hfuel; lia|]. simpl in Hfuel.
    destruct Hlay as (Ha & Hl & Hr).
    simpl. unfold load. rewrite Ha. simpl.
    destruct (cmp key k =? 0); [done|].
    destruct (cmp key k <? 0); [apply IHr|apply IHl]; (done || lia).
Qed.

Lemma find_tree_absent (t : tree) (k : K) :
  k ∉ keys t → find_tree t k = Leaf.
Proof using cmp_inst cmp_ok.
  induction t as [|a p key v l IHl r IHr]; simpl; [done|].
  intros Hk. destruct (cmp key k =? 0) eqn:Hc.
  - apply Z.eqb_eq, cmp_eq in Hc. list_solver.
  - destruct (cmp key k <? 0); [apply IHr|apply IHl]; list_solver.
Qed.


Lemma closest_leq_loop_spec (t : tree) (h : heap) (candidate : ptr) (key : K)
    (fuel : nat) :
  lays h t → (height t < fuel)%nat →
  closest_leq_loop fuel h candidate (ptr_of t) key
  = Ok (closest_leq_tree candidate t key).
Proof.
  revert fuel candidate.
  induction t as [|a p k v l IHl r IHr]; intros fuel candidate Hlay Hfuel.
  - destruct fuel; [lia|]. done.
  - destruct fuel; [simpl in Hfuel; lia|]. simpl in Hfuel.
    destruct Hlay as (Ha & Hl & Hr).
    simpl. unfold load. rewrite Ha. simpl.
    destruct (cmp k key =? 0) eqn:H0; [done|].
    destruct (cmp k key <? 0) eqn:H1; [apply IHr; (done || lia)|].
    destruct (cmp k key >? 0) eqn:H2; [apply IHl; (done || lia)|].
    apply Z.eqb_neq in H0. apply Z.ltb_ge in H1. lia.
Qed.

(** Either the result is a node of the tree that holds the largest key at or
    below [key], or no key of the tree is at or below [key] and the result is
    the candidate the search started with. *)
Lemma closest_leq_tree_spec (t : tree) (candidate : ptr) (key : K) :
  bst t →
  (∃ a m, closest_leq_tree candidate t key = Some a
          ∧ (a, m) ∈ nodes t ∧ cmp m key ≤ 0
          ∧ ∀ x, x ∈ keys t → cmp x key ≤ 0 → cmp x m ≤ 0)
  ∨ (closest_leq_tree candidate t key = candidate
     ∧ ∀ x, x ∈ keys t → key_lt key x).
Proof using cmp_inst cmp_ok.
  revert candidate. induction t as [|a p k v l IHl r IHr]; intros candidate; simpl.
  { intros _. right. list_solver. }
  intros (Hlt & Hgt & Hl & Hr).
  rewrite Forall_forall in Hlt. rewrite Forall_forall in Hgt.
  destruct (cmp k key =? 0) eqn:H0.
  { apply Z.eqb_eq in H0. left. exists a, k. split_and!; [done|list_solver|lia|].
    intros x Hx Hxk. apply cmp_eq in H0 as ->. done. }
  apply Z.eqb_neq in H0.
  destruct (cmp k key <? 0) eqn:H1.
  - apply Z.ltb_lt in H1. left.
    destruct (IHr (Some a) Hr) as [(a' & m & -> & Hn & Hm & Hmax)|[-> Hall]].
    + exists a', m. split_and!; [done|list_solver|done|].
      assert (key_lt k m) as Hkm by (apply Hgt; by eapply elem_of_nodes_keys).
      intros x Hx Hxk. apply cmp_le_inv.
      apply elem_of_app in Hx as [Hx|Hx].
      { left. apply (key_lt_trans x k m); [by apply Hlt|done]. }
      apply elem_of_cons in Hx as [->|Hx]; [by left|].
      apply cmp_le_inv. by apply Hmax.
    + exists a, k. split_and!; [done|list_solver|lia|].
      intros x Hx Hxk. apply cmp_le_inv.
      apply elem_of_app in Hx as [Hx|Hx]; [left; by apply Hlt|].
      apply elem_of_cons in Hx as [->|Hx]; [by right|].
      apply Hall in Hx. apply cmp_pos_lt in Hx. lia.
  - apply Z.ltb_ge in H1. assert (key_lt key k) as Hkey by (apply cmp_pos_lt; lia).
    assert (∀ x, x ∈ keys r → key_lt key x) as Hr_above.
    { intros x Hx. apply (key_lt_trans key k x); [done|by apply Hgt]. }
    destruct (IHl candidate Hl) as [(a' & m & -> & Hn & Hm & Hmax)|[-> Hall]].
    + left. exists a', m. split_and!; [done|list_solver|done|].
      intros x Hx Hxk.
      apply elem_of_app in Hx as [Hx|Hx]; [by apply Hmax|].
      apply elem_of_cons in Hx as [->|Hx]; [lia|].
      apply Hr_above, cmp_pos_lt in Hx. lia.
    + right. split; [done|]. intros x Hx.
      apply elem_of_app in Hx as [Hx|Hx]; [by apply Hall|].
      apply elem_of_cons in Hx as [->|Hx]; [done|by apply Hr_above].
Qed.

(** ** Traversals *)

Lemma visit_all_record_node (acc l : list loc) :
  visit_all record_node acc l = Ok (acc ++ l).
Proof.
  revert acc. induction l as [|a l IH]; intros acc; simpl.
  - by rewrite app_nil_r.
  - rewrite IH. by rewrite <- app_assoc.
Qed.

Lemma pending_addrs_app (p1 p2 : list (loc * tree)) :
  pending_addrs (p1 ++ p2) = pending_addrs p1 ++ pending_addrs p2.
Proof.
  induction p1 as [|[a r] p1 IH]; simpl; [done|].
  by rewrite IH, <- app_assoc.
Qed.

Lemma pending_addrs_left_spine (t : tree) : pending_addrs (left_spine t) = addrs t.
Proof.
  induction t as [|a p k v l IHl r IHr]; simpl; [done|].
  rewrite pending_addrs_app, IHl. simpl. by rewrite app_nil_r.
Qed.

Lemma left_spine_ok (t : tree) (h : heap) :
  lays h t → Forall (pending_ok h) (left_spine t).
Proof.
  induction t as [|a p k v l IHl r IHr]; simpl; [constructor|].
  intros (Ha & Hl & Hr). apply Forall_app. split; [by apply IHl|].
  constructor; [|constructor]. split; [|done]. by eexists.
Qed.

Lemma left_spine_nil (t : tree) : left_spine t = [] → t = Leaf.
Proof.
  destruct t as [|a p k v l r]; [done|]. simpl. intros Hnil.
  by apply app_eq_nil in Hnil as [_ ?].
Qed.

Lemma push_left_spine_spec (t : tree) (h : heap) (to_visit : list loc) (fuel : nat) :
  lays h t → (height t < fuel)%nat →
  push_left_spine fuel h to_visit (ptr_of t) = Ok ((left_spine t).*1 ++ to_visit).
Proof.
  revert fuel to_visit.
  induction t as [|a p k v l IHl r IHr]; intros fuel to_visit Hlay Hfuel.
  - destruct fuel; [lia|]. done.
  - destruct fuel; [simpl in Hfuel; lia|]. simpl in Hfuel.
    destruct Hlay as (Ha & Hl & Hr).
    simpl. unfold load. rewrite Ha. simpl.
    rewrite IHl by (done || lia).
    by rewrite fmap_app, <- app_assoc.
Qed.

(** The loop condition fails exactly when nothing is left to visit. *)
Lemma visit_loop_cond (t : tree) (pend : list (loc * tree)) :
  negb (bool_decide (pend.*1 = [])) || bool_decide (ptr_of t ≠ None) = false
  ↔ t = Leaf ∧ pend = [].
Proof.
  destruct t as [|a p k v l r], pend as [|[b r'] pend]; simpl;
    repeat case_bool_decide; (hide_vars; naive_solver).
Qed.

Lemma visit_in_order_loop_spec {A : Type} (f : A → loc → result A) (fuel : nat)
    (h : heap) (acc : A) (pend : list (loc * tree)) (t : tree) :
  lays h t → Forall (pending_ok h) pend →
  (length (addrs t ++ pending_addrs pend) + 2 ≤ fuel)%nat →
  visit_in_order_loop f fuel h acc pend.*1 (ptr_of t)
  = visit_all f acc (addrs t ++ pending_addrs pend).
Proof.
  revert acc pend t.
  induction fuel as [|fuel IH]; intros acc pend t Hlay Hpend Hfuel; [lia|].
  assert (height t < fuel)%nat as Hh.
  { pose proof (size_height t) as Hh. unfold size in Hh.
    rewrite length_app in Hfuel. lia. }
  cbn [visit_in_order_loop].
  destruct (negb _ || _) eqn:Hend.
  2: { apply visit_loop_cond in Hend as [-> ->]. done. }
  rewrite push_left_spine_spec by (done || lia). cbn [mbind result_bind].
  rewrite <- pending_addrs_left_spine, <- pending_addrs_app.
  rewrite <- pending_addrs_left_spine, <- pending_addrs_app in Hfuel.
  rewrite <- fmap_app.
  assert (Forall (pending_ok h) (left_spine t ++ pend)) as Hall.
  { apply Forall_app. split; [by apply left_spine_ok|done]. }
  destruct (left_spine t ++ pend) as [|[a r] rest] eqn:Hstack.
  { apply app_eq_nil in Hstack as [Hs ->]. apply left_spine_nil in Hs.
    pose proof (proj2 (visit_loop_cond t []) (conj Hs eq_refl)). congruence. }
  apply Forall_cons in Hall as [[(n & Hn & Hright) Hr] Hrest]. simpl in *.
  destruct (f acc a) as [acc'| |]; cbn [mbind result_bind]; [|done|done].
  unfold load. rewrite Hn. cbn [mbind result_bind]. rewrite Hright.
  apply IH; [done|done|]. simpl in Hfuel. lia.
Qed.

(** *** The bounded traversal *)

Lemma range_addrs_filter (from to : K) (t : tree) :
  range_addrs from to t = (filter (λ n, in_range from to n.2) (nodes t)).*1.
Proof.
  induction t as [|a p k v l IHl r IHr]; simpl; [done|].
  rewrite filter_app, filter_cons, !fmap_app, <- IHl. simpl.
  destruct (decide (in_range from to k)); simpl; by rewrite IHr.
Qed.

Lemma range_addrs_none (from to : K) (t : tree) :
  Forall (λ x, ¬ in_range from to x) (keys t) → range_addrs from to t = [].
Proof.
  induction t as [|a p k v l IHl r IHr]; simpl; [done|].
  rewrite Forall_app, Forall_cons. intros (Hl & Hk & Hr).
  rewrite IHl, IHr by done. by destruct (decide (in_range from to k)).
Qed.

Lemma pending_range_app (from to : K) (p1 p2 : list (loc * K * tree)) :
  pending_range from to (p1 ++ p2) = pending_range from to p1 ++ pending_range from to p2.
Proof.
  induction p1 as [|[[a k] r] p1 IH]; simpl; [done|].
  by rewrite IH, <- !app_assoc.
Qed.

Lemma pending_size_app (p1 p2 : list (loc * K * tree)) :
  pending_size (p1 ++ p2) = (pending_size p1 + pending_size p2)%nat.
Proof.
  induction p1 as [|[[a k] r] p1 IH]; simpl; [done|]. rewrite IH. lia.
Qed.

Lemma pending_size_spine_from (from : K) (t : tree) :
  (pending_size (spine_from from t) ≤ size t)%nat.
Proof.
  unfold size. induction t as [|a p k v l IHl r IHr]; simpl; [done|].
  rewrite length_app. simpl.
  destruct (cmp k from >=? 0); simpl.
  - rewrite pending_size_app. simpl. unfold size. lia.
  - unfold size. lia.
Qed.

(** Beyond a node whose key is not below [to], nothing is in the interval. *)
Lemma range_addrs_right (from to k : K) (r : tree) :
  Forall (λ x, key_lt k x) (keys r) →
  (if cmp k to <? 0 then range_addrs from to r else []) = range_addrs from to r.
Proof using cmp_inst cmp_ok.
  intros Hgt. destruct (cmp k to <? 0) eqn:Hto; [done|].
  apply Z.ltb_ge in Hto. symmetry. apply range_addrs_none.
  eapply Forall_impl; [exact Hgt|]. intros x Hx [_ Hxto].
  assert (key_lt k to) as Hk by (by apply (key_lt_trans k x to)).
  unfold key_lt in Hk. lia.
Qed.

Lemma pending_range_spine_from (from to : K) (t : tree) :
  bst t → pending_range from to (spine_from from t) = range_addrs from to t.
Proof using cmp_inst cmp_ok.
  induction t as [|a p k v l IHl r IHr]; simpl; [done|].
  intros (Hlt & Hgt & Hl & Hr).
  destruct (cmp k from >=? 0) eqn:Hfrom.
  - rewrite pending_range_app, IHl by done. simpl.
    by rewrite app_nil_r, range_addrs_right.
  - simpl. rewrite app_nil_r, range_addrs_right by done.
    assert (cmp k from < 0) as Hk by lia.
    rewrite (range_addrs_none from to l); [done|].
    eapply Forall_impl; [exact Hlt|]. intros x Hx [Hxfrom _].
    assert (key_lt x from) as Hx' by (by apply (key_lt_trans x k from)).
    unfold key_lt in Hx'. lia.
Qed.

Lemma spine_from_ok (from : K) (t : tree) (h : heap) :
  lays h t → bst t → Forall (range_entry_ok h) (spine_from from t).
Proof.
  induction t as [|a p k v l IHl r IHr]; simpl; [constructor|].
  intros (Ha & Hl & Hr) (Hlt & Hgt & Hbl & Hbr).
  assert (range_entry_ok h (a, k, r)) as Hentry.
  { split; [|done]. by eexists. }
  destruct (cmp k from >=? 0).
  - apply Forall_app. split; [by apply IHl|]. constructor; [done|constructor].
  - constructor; [done|constructor].
Qed.

Lemma spine_from_nil (from : K) (t : tree) : spine_from from t = [] → t = Leaf.
Proof.
  destruct t as [|a p k v l r]; [done|]. simpl.
  destruct (cmp k from >=? 0); [|done].
  intros Hnil. by apply app_eq_nil in Hnil as [_ ?].
Qed.

Lemma push_left_spine_from_spec (from : K) (t : tree) (h : heap)
    (to_visit : list loc) (fuel : nat) :
  lays h t → (height t < fuel)%nat →
  push_left_spine_from fuel h from to_visit (ptr_of t)
  = Ok ((spine_from from t).*1.*1 ++ to_visit).
Proof.
  revert fuel to_visit.
  induction t as [|a p k v l IHl r IHr]; intros fuel to_visit Hlay Hfuel.
  - destruct fuel; [lia|]. done.
  - destruct fuel; [simpl in Hfuel; lia|]. simpl in Hfuel.
    destruct Hlay as (Ha & Hl & Hr).
    simpl. unfold load. rewrite Ha. simpl.
    destruct (cmp k from >=? 0); [|done].
    rewrite IHl by (done || lia).
    by rewrite !fmap_app, <- app_assoc.
Qed.

Lemma visit_range_loop_cond (t : tree) (pend : list (loc * K * tree)) :
  negb (bool_decide (pend.*1.*1 = [])) || bool_decide (ptr_of t ≠ None) = false
  ↔ t = Leaf ∧ pend = [].
Proof.
  destruct t as [|a p k v l r], pend as [|[[b kb] r'] pend]; simpl;
    repeat case_bool_decide; (hide_vars; naive_solver).
Qed.

Lemma visit_range_in_order_loop_spec {A : Type} (f : A → loc → result A)
    (from to : K) (fuel : nat) (h : heap) (acc : A)
    (pend : list (loc * K * tree)) (t : tree) :
  lays h t → bst t → Forall (range_entry_ok h) pend →
  (size t + pending_size pend + 2 ≤ fuel)%nat →
  visit_range_in_order_loop f fuel h from to acc pend.*1.*1 (ptr_of t)
  = visit_all f acc (range_addrs from to t ++ pending_range from to pend).
Proof using cmp_inst cmp_ok.
  revert acc pend t.
  induction fuel as [|fuel IH]; intros acc pend t Hlay Hbst Hpend Hfuel; [lia|].
  assert (height t < fuel)%nat as Hh.
  { pose proof (size_height t). lia. }
  cbn [visit_range_in_order_loop].
  destruct (negb _ || _) eqn:Hend.
  2: { apply visit_range_loop_cond in Hend as [-> ->]. done. }
  rewrite push_left_spine_from_spec by (done || lia). cbn [mbind result_bind].
  rewrite <- (pending_range_spine_from from to t), <- pending_range_app by done.
  pose proof (pending_size_spine_from from t) as Hsize.
  assert (pending_size (spine_from from t ++ pend) + 2 ≤ S fuel)%nat as Hfuel'.
  { rewrite pending_size_app. lia. }
  rewrite <- !fmap_app.
  assert (Forall (range_entry_ok h) (spine_from from t ++ pend)) as Hall.
  { apply Forall_app. split; [by apply spine_from_ok|done]. }
  destruct (spine_from from t ++ pend) as [|[[a k] r] rest] eqn:Hstack.
  { apply app_eq_nil in Hstack as [Hs ->]. apply spine_from_nil in Hs.
    pose proof (proj2 (visit_range_loop_cond t []) (conj Hs eq_refl)). congruence. }
  apply Forall_cons in Hall as [((n & Hn & Hkey & Hright) & Hr & Hbr) Hrest].
  simpl in Hn, Hkey, Hright, Hr, Hbr, Hfuel'.
  cbn [fmap list_fmap fst pending_range]. unfold load. rewrite Hn.
  cbn [mbind result_bind]. rewrite Hkey, Hright.
  assert ((cmp k from >=? 0) && (cmp k to <? 0)
          = bool_decide (in_range from to k)) as ->.
  { destruct (decide (in_range from to k)) as [[H1 H2]|Hout].
    - rewrite bool_decide_true by done. apply andb_true_iff. lia.
    - rewrite bool_decide_false by done. apply andb_false_iff.
      unfold in_range in Hout. lia. }
  destruct (decide (in_range from to k)) as [Hin|Hout].
  - rewrite bool_decide_true by done. simpl visit_all.
    destruct (f acc a) as [acc'| |]; cbn [mbind result_bind]; [|done|done].
    destruct (cmp k to <? 0).
    + apply IH; [done|done|done|lia].
    + apply (IH acc' rest Leaf); [done|done|done|]. unfold size. simpl. lia.
  - rewrite bool_decide_false by done. cbn [mbind result_bind app].
    destruct (cmp k to <? 0).
    + apply IH; [done|done|done|lia].
    + apply (IH acc rest Leaf); [done|done|done|]. unfold size. simpl. lia.
Qed.

(** ** remove_all *)

Lemma elem_of_forest_addrs (ts : list tree) (t : tree) (a : loc) :
  t ∈ ts → a ∈ addrs t → a ∈ forest_addrs ts.
Proof.
  induction ts as [|t' ts IH]; simpl; [list_solver|].
  intros Ht Ha. apply elem_of_cons in Ht as [->|Ht]; list_solver.
Qed.

Lemma remove_all_loop_spec (fuel : nat) (ts : list tree) (h : heap) :
  Forall (lays h) ts → NoDup (forest_addrs ts) → (forest_cost ts < fuel)%nat →
  ∃ h', remove_all_loop fuel h (ptr_of <$> ts) = Ok h'
      ∧ ∀ a, h' !! a = if decide (a ∈ forest_addrs ts) then None else h !! a.
Proof.
  revert ts h. induction fuel as [|fuel IH]; intros ts h Hlay Hnd Hfuel; [lia|].
  destruct ts as [|[|a p k v l r] ts]; cbn [fmap list_fmap remove_all_loop ptr_of].
  - exists h. split; [done|]. intros b. by rewrite decide_False by list_solver.
  - apply Forall_cons in Hlay as [_ Hlay]. simpl in Hfuel.
    destruct (IH ts h) as (h' & Hrun & Hh'); [done|done|lia|].
    exists h'. done.
  - apply Forall_cons in Hlay as [(Ha & Hl & Hr) Hlay].
    cbn [forest_addrs addrs] in Hnd.
    unfold load, free. rewrite Ha. cbn [mbind result_bind _left _right].
    destruct (IH (r :: l :: ts) (delete a h)) as (h' & Hrun & Hh').
    + rewrite !NoDup_app, NoDup_cons in Hnd.
      destruct Hnd as ((Hndl & Hdl & Hal & Hndr) & Hd & Hnds).
      assert (∀ t, a ∉ addrs t → lays h t → lays (delete a h) t) as Hdel.
      { intros t Hat Ht. apply (lays_frame t h); [done|].
        intros b Hb. apply lookup_delete_ne. by intros ->. }
      repeat apply Forall_cons_2.
      * apply Hdel; [done|done].
      * apply Hdel; [|done]. intros Hin. apply (Hdl a Hin). list_solver.
      * apply Forall_forall. intros t Ht. rewrite Forall_forall in Hlay.
        apply Hdel; [|by apply Hlay]. intros Hat.
        apply (Hd a); [list_solver|]. by apply (elem_of_forest_addrs ts t).
    + cbn [forest_addrs].
      rewrite !NoDup_app, NoDup_cons in Hnd. rewrite !NoDup_app.
      destruct Hnd as ((Hndl & Hdl & Hal & Hndr) & Hd & Hnds).
      split_and!; [done| |done| |done].
      * intros x Hx. rewrite elem_of_app. intros [Hxl|Hxs].
        -- apply (Hdl x Hxl). list_solver.
        -- apply (Hd x); [list_solver|done].
      * intros x Hx. apply Hd. list_solver.
    + cbn [forest_cost] in *. unfold size in *. cbn [addrs] in Hfuel.
      rewrite length_app in Hfuel. simpl in Hfuel. lia.
    + change (_right _ :: _left _ :: _) with (ptr_of <$> r :: l :: ts) in *.
      exists h'. split; [done|]. intros b. rewrite Hh'.
      cbn [forest_addrs addrs].
      destruct (decide (b = a)) as [->|Hne].
      * rewrite lookup_delete_eq. rewrite (decide_True (P := a ∈ (_ ++ _ :: _) ++ _));
          [|list_solver]. by destruct (decide _).
      * rewrite lookup_delete_ne by done.
        destruct (decide (b ∈ addrs r ++ addrs l ++ _)) as [Hin|Hout].
        -- rewrite decide_True; [done|]. list_solver.
        -- rewrite decide_False; [done|]. list_solver.
Qed.

(** ** upsert and remove on trees *)






(** *** set_value_tree *)







(** The node that [find] returns is a node of the tree. *)
Lemma find_tree_node (t : tree) (k : K) (a : loc) (p : Z) (key : K) (v : V)
    (l r : tree) :
  find_tree t k = Node a p key v l r → (a, key) ∈ nodes t ∧ cmp key k = 0.
Proof.
  induction t as [|a' p' key' v' l' IHl r' IHr]; simpl; [done|].
  destruct (cmp key' k =? 0) eqn:H0.
  - intros [= -> -> -> -> -> ->]. apply Z.eqb_eq in H0. list_solver.
  - destruct (cmp key' k <? 0); intros Hf; [apply IHr in Hf|apply IHl in Hf];
      list_solver.
Qed.



(** ** The public operations on a container that holds a tree *)








(** *** remove *)















(** ** The invariants under the public operations *)






(** The in-order traversal of a container visits the nodes of its tree. *)
Lemma visit_in_order_spec {A : Type} (f : A → loc → result A) (c : Treap) (t : tree)
    (acc : A) (fuel : nat) :
  represents c t → (size t + 2 ≤ fuel)%nat →
  visit_in_order f fuel c acc = visit_all f acc (addrs t).
Proof.
  intros (Hroot & Hlay & _) Hfuel. unfold visit_in_order. rewrite Hroot.
  pose proof (visit_in_order_loop_spec f fuel (store c) acc [] t Hlay) as Hspec.
  cbn [pending_addrs fmap list_fmap] in Hspec. rewrite app_nil_r in Hspec.
  apply Hspec; [constructor|done].
Qed.

Lemma visit_range_in_order_spec {A : Type} (f : A → loc → result A) (c : Treap)
    (t : tree) (from to : K) (acc : A) (fuel : nat) :
  represents c t → bst t → (size t + 2 ≤ fuel)%nat →
  visit_range_in_order f fuel c from to acc
  = visit_all f acc (range_addrs from to t).
Proof using cmp_inst cmp_ok.
  intros (Hroot & Hlay & _) Hbst Hfuel. unfold visit_range_in_order. rewrite Hroot.
  pose proof (visit_range_in_order_loop_spec f from to fuel (store c) acc [] t Hlay Hbst)
    as Hspec.
  cbn [pending_range pending_size fmap list_fmap] in Hspec.
  rewrite app_nil_r in Hspec. apply Hspec; [constructor|lia].
Qed.



(** ** More fuel does not change a result *)






(** ** What the invariants say of the keys and of the priorities in the store *)

Lemma bst_sorted (t : tree) : bst t → StronglySorted key_lt (keys t).
Proof using cmp_inst cmp_ok.
  induction t as [|a p k v l IHl r IHr]; simpl; [constructor|].
  intros (Hlt & Hgt & Hl & Hr).
  rewrite Forall_forall in Hlt.
  apply StronglySorted_app_2; [|by apply IHl|constructor; [by apply IHr|done]].
  intros x y Hx Hy. apply elem_of_cons in Hy as [->|Hy]; [by apply Hlt|].
  rewrite Forall_forall in Hgt. apply (key_lt_trans x k y); auto.
Qed.




(** * The properties of the container *)



(** C4: on a container that satisfies the invariants, [closest_leq k]
    returns the node with key [k] when [k] is a key of the tree; otherwise the
    node with the largest key below [k] when there is one; and [nullptr] when
    every key of the tree is above [k], as on the empty tree. *)
Theorem closest_leq_correct (c : Treap) (t : tree) (k : K) :
  valid c t →
  ∃ fuel0, ∀ fuel, (fuel0 ≤ fuel)%nat →
    ∃ res, closest_leq fuel c k = Ok res
      ∧ (k ∈ keys t →
         ∃ a n, res = Some a ∧ a ∈ addrs t ∧ store c !! a = Some n ∧ _key n = k)
      ∧ (k ∉ keys t → ∀ m, m ∈ keys t → key_lt m k →
         (∀ x, x ∈ keys t → key_lt x k → x = m ∨ key_lt x m) →
         ∃ a n, res = Some a ∧ a ∈ addrs t ∧ store c !! a = Some n ∧ _key n = m)
      ∧ ((∀ x, x ∈ keys t → key_lt k x) → res = None).
Proof using cmp_inst cmp_ok.
  intros ((Hroot & Hlay & Hnd) & Hbst & _ & _).
  exists (S (height t)). intros fuel Hfuel.
  exists (closest_leq_tree None t k). split.
  { unfold closest_leq. rewrite Hroot. apply closest_leq_loop_spec; [done|lia]. }
  destruct (closest_leq_tree_spec t None k Hbst)
    as [(a & m & Hres & Hnode & Hle & Hmax)|[Hres Habove]].
  - destruct (lays_node t (store c) a m Hlay Hnode) as (n & Hn & Hkey).
    pose proof (elem_of_nodes_addrs t a m Hnode) as Ha.
    pose proof (elem_of_nodes_keys t a m Hnode) as Hm.
    split_and!.
    + intros Hk. exists a, n. split_and!; [done|done|done|].
      rewrite Hkey. apply cmp_le_inv in Hle as [Hlt|Heq]; [|done].
      assert (cmp k m ≤ 0) as Hkm' by (apply Hmax; [done|by rewrite cmp_refl]).
      apply cmp_le_inv in Hkm' as [Hkm| ->]; [|done]. by apply key_lt_asym in Hkm.
    + intros Hk m' Hm' Hlt' Hlargest. exists a, n. split_and!; [done|done|done|].
      rewrite Hkey. apply cmp_le_inv in Hle as [Hlt| ->]; [|done].
      destruct (Hlargest m Hm Hlt) as [?|Hmm']; [done|].
      assert (cmp m' m ≤ 0) as Hle'.
      { apply Hmax; [done|]. apply cmp_le_inv. by left. }
      apply cmp_le_inv in Hle' as [Hm'm|?]; [|done]. by apply key_lt_asym in Hmm'.
    + intros Habove. apply Habove in Hm. apply cmp_le_inv in Hle as [Hlt| ->].
      * by apply key_lt_asym in Hm.
      * by apply key_lt_irrefl in Hm.
  - split_and!.
    + intros Hk. by apply Habove, key_lt_irrefl in Hk.
    + intros _ m Hm Hlt. by apply Habove, key_lt_asym in Hm.
    + done.
Qed.

Lemma find_tree_entry (t : tree) (k : K) (v : V) :
  bst t → (k, v) ∈ entries t → ∃ a p l r, find_tree t k = Node a p k v l r.
Proof using cmp_inst cmp_ok.
  induction t as [|a p key v0 l IHl r IHr]; simpl; [list_solver|].
  intros (Hlt & Hgt & Hl & Hr) Hin.
  rewrite Forall_forall in Hlt. rewrite Forall_forall in Hgt.
  apply elem_of_app in Hin as [Hin|Hin].
  - assert (key_lt k key) as Hk.
    { apply Hlt. rewrite <- fst_entries. by apply (list_elem_of_fmap_2 fst) in Hin. }
    apply cmp_pos_lt in Hk.
    destruct (cmp key k =? 0) eqn:H0; [lia|]. destruct (cmp key k <? 0) eqn:H1; [lia|].
    by apply IHl.
  - apply elem_of_cons in Hin as [[= -> ->]|Hin].
    { rewrite cmp_refl. simpl. by eexists _, _, _, _. }
    assert (key_lt key k) as Hk.
    { apply Hgt. rewrite <- fst_entries. by apply (list_elem_of_fmap_2 fst) in Hin. }
    unfold key_lt in Hk.
    destruct (cmp key k =? 0) eqn:H0; [lia|]. destruct (cmp key k <? 0) eqn:H1; [|lia].
    by apply IHr.
Qed.




(** *** remove of a key that is not in the tree *)







(** C8: on a container that satisfies the invariants,
    [visit_range_in_order from to f] calls [f] on exactly the nodes whose key
    [k] has [from <= k < to], in the order of the tree, which is the
    ascending order of the keys; with the visitor that records its argument
    the result is the list of these nodes. *)
Theorem visit_range_in_order_correct (c : Treap) (t : tree) (from to : K) :
  valid c t →
  ∃ fuel0, ∀ fuel, (fuel0 ≤ fuel)%nat →
    (∀ (A : Type) (f : A → loc → result A) (acc : A),
       visit_range_in_order f fuel c from to acc
       = visit_all f acc (filter (λ n, in_range from to n.2) (nodes t)).*1)
    ∧ visit_range_in_order record_node fuel c from to []
      = Ok (filter (λ n, in_range from to n.2) (nodes t)).*1
    ∧ StronglySorted key_lt (nodes t).*2.
Proof using cmp_inst cmp_ok.
  intros (Hrep & Hbst & _ & _). exists (size t + 2)%nat. intros fuel Hfuel.
  split_and!.
  - intros A f acc. rewrite <- range_addrs_filter.
    by apply visit_range_in_order_spec.
  - rewrite <- range_addrs_filter.
    rewrite (visit_range_in_order_spec _ c t) by done.
    by rewrite visit_all_record_node.
  - rewrite snd_nodes. by apply bst_sorted.
Qed.

(** *** The in-order pass of verify_self *)

Lemma visit_in_order_loop_inv {A : Type} (P : A → Prop) (f : A → loc → result A) :
  (∀ acc a acc', P acc → f acc a = Ok acc' → P acc') →
  ∀ fuel (h : heap) acc to_visit head res,
    P acc → visit_in_order_loop f fuel h acc to_visit head = Ok res → P res.
Proof.
  intros Hstep fuel h. induction fuel as [|fuel IH]; intros acc to_visit head res Hacc;
    [done|].
  simpl. destruct (negb _ || _); [|by intros [= <-]].
  destruct (push_left_spine fuel h to_visit head) as [[|a rest]| |]; simpl;
    [done| |done|done].
  destruct (f acc a) as [acc'| |] eqn:Hf; simpl; [|done|done].
  destruct (load h a) as [n| |]; simpl; [|done|done].
  apply IH. by apply (Hstep acc a).
Qed.

Lemma key_check_visit_failed (h : heap) (st st' : key_check) (a : loc) :
  failed st = false → key_check_visit h st a = Ok st' → failed st' = false.
Proof.
  intros Hst. unfold key_check_visit.
  destruct (int_incr (seen_count st)) as [count| |]; simpl; [|done|done].
  destruct (last_seen st) as [last|]; [|by intros [= <-]].
  destruct (load h last) as [ln| |]; simpl; [|done|done].
  destruct (load h a) as [n| |]; simpl; [|done|done].
  intros [= <-]. simpl. by destruct (cmp (_key ln) (_key n) >? 0).
Qed.

Lemma key_check_visit_ok (h : heap) (st : key_check) (a : loc) :
  is_Some (h !! a) →
  (∀ b, last_seen st = Some b → is_Some (h !! b)) →
  seen_count st < INT_MAX →
  ∃ st', key_check_visit h st a = Ok st'
         ∧ last_seen st' = Some a ∧ seen_count st' = seen_count st + 1.
Proof.
  intros [n Hn] Hlast Hcount. unfold key_check_visit, int_incr.
  rewrite (proj2 (Z.ltb_lt (seen_count st) INT_MAX)) by done.
  cbn [mbind result_bind].
  destruct (last_seen st) as [last|] eqn:Hls; [|by eexists].
  destruct (Hlast last eq_refl) as [ln Hln]. unfold load. rewrite Hln, Hn.
  by eexists.
Qed.

Lemma key_check_visit_all (h : heap) (l : list loc) (st : key_check) :
  Forall (λ a, is_Some (h !! a)) l →
  (∀ a, last_seen st = Some a → is_Some (h !! a)) →
  seen_count st + Z.of_nat (length l) ≤ INT_MAX →
  ∃ st', visit_all (key_check_visit h) st l = Ok st'
         ∧ seen_count st' = seen_count st + Z.of_nat (length l).
Proof.
  revert st. induction l as [|a l IH]; intros st Hl Hlast Hcount.
  - exists st. split; [done|]. simpl. lia.
  - apply Forall_cons in Hl as [Ha Hl]. cbn [length] in Hcount.
    destruct (key_check_visit_ok h st a Ha Hlast) as (st1 & Hstep & Hlast1 & Hcount1);
      [lia|].
    destruct (IH st1) as (st' & Hrun & Hcount'); [done| |lia|].
    { intros b. rewrite Hlast1. by intros [= <-]. }
    exists st'. cbn [visit_all]. rewrite Hstep. cbn [mbind result_bind].
    split; [done|]. cbn [length]. lia.
Qed.

(** C9: whatever the store and the root are, when the in-order pass of
    [verify_self] ends, [failed] is [false]: the only assignment to it stores
    [false].  The pass does end on every container that holds a tree, also one
    whose keys are not in increasing order, having counted its nodes. *)
Theorem verify_self_failed_stays_false (c : Treap) :
  (∀ fuel st, verify_self_in_order fuel c = Ok st → failed st = false)
  ∧ (∀ t, represents c t → Z.of_nat (size t) ≤ INT_MAX →
     ∃ fuel0, ∀ fuel, (fuel0 ≤ fuel)%nat →
       ∃ st, verify_self_in_order fuel c = Ok st
             ∧ failed st = false ∧ seen_count st = Z.of_nat (size t)).
Proof.
  assert (∀ fuel st, verify_self_in_order fuel c = Ok st → failed st = false) as Hfalse.
  { intros fuel st. unfold verify_self_in_order, visit_in_order.
    apply (visit_in_order_loop_inv (λ st, failed st = false)); [|done].
    intros acc a acc' Hacc. by apply key_check_visit_failed. }
  split; [done|].
  intros t Hrep Hsize. exists (size t + 2)%nat. intros fuel Hfuel.
  destruct (key_check_visit_all (store c) (addrs t) (mk_key_check None false 0))
    as (st & Hrun & Hcount); [|done|simpl; unfold size in Hsize; lia|].
  { apply Forall_forall. intros a Ha. destruct Hrep as (_ & Hlay & _).
    by apply (lays_allocated t). }
  assert (verify_self_in_order fuel c = Ok st) as Hverify.
  { unfold verify_self_in_order. by rewrite (visit_in_order_spec _ c t). }
  exists st. split_and!; [done|by apply (Hfalse fuel)|]. rewrite Hcount. simpl.
  unfold size. lia.
Qed.

(** *** The priority generator under the operations *)



(** *** remove_all *)

(** [remove_all] releases the nodes of the tree and resets [_node_count];
    [_root] keeps its value. *)
Lemma remove_all_spec (c : Treap) (t : tree) (fuel : nat) :
  represents c t → (2 * size t + 1 < fuel)%nat →
  ∃ h', remove_all fuel c = Ok (mk_Treap h' (_root c) (_prng_seed c) 0)
      ∧ ∀ a, h' !! a = if decide (a ∈ addrs t) then None else store c !! a.
Proof.
  intros (Hroot & Hlay & Hnd) Hfuel.
  destruct (remove_all_loop_spec fuel [t] (store c)) as (h' & Hloop & Hh').
  - by constructor.
  - simpl. by rewrite app_nil_r.
  - simpl. lia.
  - exists h'. unfold remove_all. rewrite Hroot. simpl in Hloop. rewrite Hloop.
    split; [done|]. intros a. rewrite Hh'. simpl. rewrite app_nil_r.
    by destruct (decide (a ∈ addrs t)).
Qed.

(** * Further properties of the code *)

(** ** The nodes with their contents *)

Lemma addrs_cells (t : tree) : addrs t = (λ e, e.1.1.1) <$> cells t.
Proof.
  induction t as [|a p k v l IHl r IHr]; simpl; [done|].
  by rewrite fmap_app, IHl, IHr.
Qed.






Lemma elem_of_cells_addrs (t : tree) (e : loc * Z * K * V) :
  e ∈ cells t → e.1.1.1 ∈ addrs t.
Proof. rewrite addrs_cells. apply (list_elem_of_fmap_2 (λ e, e.1.1.1)). Qed.


(** A store that holds a tree holds each of its nodes with its contents. *)
Lemma lays_cell (t : tree) (h : heap) (a : loc) (p : Z) (k : K) (v : V) :
  lays h t → (a, p, k, v) ∈ cells t →
  ∃ n, h !! a = Some n ∧ _priority n = p ∧ _key n = k ∧ _value n = v.
Proof.
  induction t as [|a' p' k' v' l IHl r IHr]; simpl.
  { intros _ Hin. by apply elem_of_nil in Hin. }
  intros (Ha & Hl & Hr) Hin.
  apply elem_of_app in Hin as [Hin|Hin]; [by apply IHl|].
  apply elem_of_cons in Hin as [[= -> -> -> ->]|Hin]; [|by apply IHr].
  by eexists.
Qed.

Lemma find_tree_cell (t : tree) (k : K) (a : loc) (p : Z) (key : K) (v : V)
    (l r : tree) :
  find_tree t k = Node a p key v l r → (a, p, key, v) ∈ cells t.
Proof.
  induction t as [|a' p' k' v' l' IHl r' IHr]; simpl; [done|].
  destruct (cmp k' k =? 0).
  { intros [= -> -> -> -> -> ->]. hide_vars. set_solver. }
  destruct (cmp k' k <? 0); intros Hf.
  - apply IHr in Hf. hide_vars. set_solver.
  - apply IHl in Hf. hide_vars. set_solver.
Qed.



(** ** find *)

(** X1 ([find]): on a container that satisfies the invariants, [find k]
    returns; for an entry [(k, v)] of the tree the result is the address of
    a node of the tree that holds the key [k] and the value [v]; for a key
    that is not in the tree the result is [nullptr]; and a result other
    than [nullptr] is always a node of the tree with the key [k]. *)
Theorem find_correct (c : Treap) (t : tree) (k : K) :
  valid c t →
  ∃ fuel0, ∀ fuel, (fuel0 ≤ fuel)%nat →
    ∃ res, find fuel (store c) (_root c) k = Ok res
      ∧ (∀ v, (k, v) ∈ entries t →
           ∃ a n, res = Some a ∧ a ∈ addrs t ∧ store c !! a = Some n
                  ∧ _key n = k ∧ _value n = v)
      ∧ (k ∉ keys t → res = None)
      ∧ (∀ a, res = Some a →
           ∃ n, a ∈ addrs t ∧ store c !! a = Some n ∧ _key n = k).
Proof using cmp_inst cmp_ok.
  intros ((Hroot & Hlay & Hnd) & Hbst & _ & _).
  exists (S (height t)). intros fuel Hfuel.
  exists (ptr_of (find_tree t k)). rewrite Hroot, find_spec; [|done|lia].
  split_and!; [done| | |].
  - intros v Hin.
    destruct (find_tree_entry t k v Hbst Hin) as (a & p & l & r & Hf).
    pose proof (find_tree_cell t k a p k v l r Hf) as Hcell.
    destruct (lays_cell t (store c) a p k v Hlay Hcell) as (n & Hn & _ & Hk & Hv).
    exists a, n. rewrite Hf. split_and!; try done.
    by apply (elem_of_cells_addrs t (a, p, k, v)).
  - intros Hnot. by rewrite find_tree_absent.
  - intros a Hres. destruct (find_tree t k) as [|a' p key v l r] eqn:Hf; [done|].
    injection Hres as ->.
    destruct (find_tree_node t k a p key v l r Hf) as [_ Hc].
    apply cmp_eq in Hc as ->.
    pose proof (find_tree_cell t k a p k v l r Hf) as Hcell.
    destruct (lays_cell t (store c) a p k v Hlay Hcell) as (n & Hn & _ & Hk & _).
    exists n. split_and!; try done.
    by apply (elem_of_cells_addrs t (a, p, k, v)).
Qed.

(** ** visit_in_order *)

(** X2 ([visit_in_order]): on a container that satisfies the invariants the
    traversal returns what the calls of the visitor give when made on the
    nodes of the tree one after the other, whatever the visitor: each node
    is visited once, the keys of the visited nodes are strictly increasing,
    and there are [_node_count] of them. *)
Theorem visit_in_order_correct (c : Treap) (t : tree) :
  valid c t →
  ∃ fuel0, ∀ fuel, (fuel0 ≤ fuel)%nat →
    (∀ (A : Type) (f : A → loc → result A) (acc : A),
       visit_in_order f fuel c acc = visit_all f acc (nodes t).*1)
    ∧ visit_in_order record_node fuel c [] = Ok (nodes t).*1
    ∧ NoDup (nodes t).*1
    ∧ StronglySorted key_lt (nodes t).*2
    ∧ Z.of_nat (length (nodes t)) = _node_count c
    ∧ (∀ a k, (a, k) ∈ nodes t → ∃ n, store c !! a = Some n ∧ _key n = k).
Proof using cmp_inst cmp_ok.
  intros (Hrep & Hbst & _ & Hcount).
  exists (size t + 2)%nat. intros fuel Hfuel.
  rewrite fst_nodes, snd_nodes.
  split_and!.
  - intros A f acc. by apply visit_in_order_spec.
  - rewrite (visit_in_order_spec record_node c t [] fuel Hrep Hfuel).
    by rewrite visit_all_record_node.
  - by destruct Hrep as (_ & _ & Hnd).
  - by apply bst_sorted.
  - rewrite Hcount. unfold size. rewrite <- fst_nodes. by rewrite length_fmap.
  - intros a k Hin. destruct Hrep as (_ & Hlay & _). by apply (lays_node t).
Qed.

(** X3 ([visit_range_in_order]): when [to] is not above [from] the interval
    is empty, and on a container that satisfies the invariants the traversal
    returns without a call of the visitor. *)
Theorem visit_range_in_order_empty_interval (c : Treap) (t : tree) (from to : K) :
  valid c t → cmp to from ≤ 0 →
  ∃ fuel0, ∀ fuel, (fuel0 ≤ fuel)%nat →
    ∀ (A : Type) (f : A → loc → result A) (acc : A),
      visit_range_in_order f fuel c from to acc = Ok acc.
Proof using cmp_inst cmp_ok.
  intros (Hrep & Hbst & _ & _) Hle.
  exists (size t + 2)%nat. intros fuel Hfuel A f acc.
  rewrite (visit_range_in_order_spec f c t from to acc fuel Hrep Hbst Hfuel).
  rewrite range_addrs_none; [done|].
  apply Forall_forall. intros x _ [Hfrom Hto].
  apply cmp_le_inv in Hle as [Hlt| ->].
  - pose proof (key_lt_trans x to from Hto Hlt) as Hx. unfold key_lt in Hx. lia.
  - lia.
Qed.

(** ** remove_all and the destructor *)

(** X4 ([remove_all], which is also all that the destructor does): on a
    container that holds a tree, search tree or not, [remove_all] returns;
    it releases every node of the tree, each once, leaves all other storage
    as it is, sets [_node_count] to zero and keeps the seed.  On an empty
    container it changes nothing in the store and the container satisfies
    the invariants. *)
Theorem remove_all_releases_nodes (c : Treap) (t : tree) :
  represents c t →
  ∃ fuel0, ∀ fuel, (fuel0 ≤ fuel)%nat →
    ∃ c', remove_all fuel c = Ok c'
      ∧ _node_count c' = 0 ∧ _prng_seed c' = _prng_seed c
      ∧ (∀ a, a ∈ addrs t → is_Some (store c !! a) ∧ store c' !! a = None)
      ∧ (∀ a, a ∉ addrs t → store c' !! a = store c !! a)
      ∧ (t = Leaf → store c' = store c ∧ valid c' Leaf).
Proof.
  intros Hrep. exists (2 * size t + 2)%nat. intros fuel Hfuel.
  destruct (remove_all_spec c t fuel Hrep) as (h' & Hrm & Hh'); [lia|].
  eexists. split; [exact Hrm|]. simpl.
  destruct Hrep as (Hroot & Hlay & Hnd).
  split_and!; [done|done| | |].
  - intros a Hin. split; [by apply (lays_allocated t)|].
    rewrite Hh'. by destruct (decide (a ∈ addrs t)).
  - intros a Hnot. rewrite Hh'. by destruct (decide (a ∈ addrs t)).
  - intros ->. assert (h' = store c) as ->.
    { apply map_eq. intros a. rewrite Hh'. simpl.
      destruct (decide (a ∈ [])) as [Hin|]; [|done]. by apply elem_of_nil in Hin. }
    split; [done|]. split; [|done]. split_and!; [done|done|constructor].
Qed.

(** ** split and merge *)



(** ** prng_next *)

Lemma prng_step_mod (seed : Z) :
  prng_step seed = (PrngMult * seed + PrngAdd) mod 2 ^ 48.
Proof.
  unfold prng_step. change PrngModMask with (Z.ones 48).
  rewrite Z.land_ones by lia.
  apply Z.mod_mod_divide. exists (2 ^ 16). lia.
Qed.

Lemma prng_step_inj (s1 s2 : Z) :
  prng_step s1 = prng_step s2 → s1 mod 2 ^ 48 = s2 mod 2 ^ 48.
Proof.
  rewrite !prng_step_mod. intros Heq.
  apply Z.cong_iff_0 in Heq. apply Z.cong_iff_0.
  apply Z.mod_divide in Heq; [|lia]. apply Z.mod_divide; [lia|].
  apply (Z.gauss _ PrngMult); [|by vm_compute].
  by replace (PrngMult * (s1 - s2))
    with (PrngMult * s1 + PrngAdd - (PrngMult * s2 + PrngAdd)) by lia.
Qed.

(** X7 ([prng_next]): the value that [prng_next] returns and stores as the
    new seed is [(0x5DEECE66D * seed + 0xB) mod 2^48], so it is below 2^48
    and below [positive_infinity]; the rest of the container is left as it
    is; and two seeds that give the same value agree in their low 48 bits,
    so the generator never maps two 48-bit states to one. *)
Theorem prng_next_value (c c2 : Treap) :
  (prng_next c).1 = (PrngMult * _prng_seed c + PrngAdd) mod 2 ^ 48
  ∧ 0 ≤ (prng_next c).1 < 2 ^ 48
  ∧ (prng_next c).1 < positive_infinity
  ∧ (prng_next c).2
    = mk_Treap (store c) (_root c) (prng_next c).1 (_node_count c)
  ∧ ((prng_next c).1 = (prng_next c2).1 →
     _prng_seed c mod 2 ^ 48 = _prng_seed c2 mod 2 ^ 48).
Proof.
  unfold prng_next. cbn [fst snd]. rewrite prng_step_mod.
  pose proof (Z.mod_pos_bound (PrngMult * _prng_seed c + PrngAdd) (2 ^ 48)) as Hb.
  split_and!; [done|lia|lia| |done|].
  - unfold positive_infinity. lia.
  - rewrite <- !prng_step_mod. apply prng_step_inj.
Qed.

(** ** The depth-first pass of verify_self *)

Lemma verify_self_dfs_loop_spec (fuel : nat) :
  ∀ (ws : list (Z * Z * tree)) (h : heap) (m : Z),
    Forall (λ e, lays h e.2) ws →
    Forall (λ e, e.1.1 + Z.of_nat (size e.2) ≤ INT_MAX) ws →
    (forest_cost ws.*2 < fuel)%nat →
    ∃ res, verify_self_dfs_loop fuel h m (dfs_entry <$> ws) = Ok res
      ∧ (Forall dfs_entry_ok ws → res = Some (dfs_deepest m ws))
      ∧ (∀ d, res = Some d → Forall dfs_entry_ok ws).
Proof.
  induction fuel as [|fuel IH]; intros ws h m Hlay Hmax Hfuel; [lia|].
  destruct ws as [|[[d pp] t] ws].
  { exists (Some m). split_and!; [done|done|]. intros _ _. constructor. }
  apply Forall_cons in Hlay as [Hlayt Hlay]. apply Forall_cons in Hmax as [Hmaxt Hmax].
  cbn [fst snd] in Hlayt, Hmaxt.
  destruct t as [|a p k v l r].
  - destruct (IH ws h m Hlay Hmax) as (res & Hres & Hok & Hback).
    { cbn [fmap list_fmap forest_cost snd] in Hfuel. lia. }
    exists res. split_and!.
    + exact Hres.
    + intros Hall. apply Forall_cons in Hall as [_ Hall]. by apply Hok.
    + intros d' Hd. constructor; [by split|by apply (Hback d')].
  - destruct Hlayt as (Ha & Hl & Hr).
    assert (size (Node a p k v l r) = S (size l + size r)) as Hsize.
    { unfold size. cbn [addrs]. rewrite length_app. simpl. lia. }
    rewrite Hsize in Hmaxt.
    cbn [fmap list_fmap verify_self_dfs_loop dfs_entry fst snd ptr_of dfs_n
         dfs_depth dfs_parent_prio].
    unfold load. rewrite Ha.
    cbn [mbind result_bind _priority _left _right].
    destruct (pp >=? p) eqn:Hpp.
    + unfold int_incr. destruct (d <? INT_MAX) eqn:Hd; [|lia].
      cbn [mbind result_bind].
      destruct (IH ((d + 1, p, r) :: (d + 1, p, l) :: ws) h (Z.max m d))
        as (res & Hres & Hok & Hback).
      * by repeat constructor.
      * repeat constructor; cbn [fst snd]; [lia|lia|done].
      * cbn [fmap list_fmap forest_cost snd] in Hfuel |- *. rewrite Hsize in Hfuel. lia.
      * exists res. split_and!.
        -- exact Hres.
        -- intros Hall. apply Forall_cons in Hall as [[Hp (Hpl & Hpr & Hol & Hor)] Hall].
           rewrite Hok; [|by repeat constructor].
           f_equal. cbn [dfs_deepest]. f_equal.
           destruct l, r; cbn [height]; lia.
        -- intros d' Hd'. pose proof (Hback d' Hd') as Hall.
           apply Forall_cons in Hall as [[Hpr Hor] Hall].
           apply Forall_cons in Hall as [[Hpl Hol] Hall].
           constructor; [|done]. split; simpl; [lia|done].
    + exists None. split_and!; [done| |done].
      intros Hall. apply Forall_cons in Hall as [[Hp _] _]. simpl in Hp. lia.
Qed.

(** X8 (the depth-first pass of [verify_self]): on a container that holds a
    tree of at most [INT_MAX] nodes whose root priority is a [uint64_t], the
    pass ends.  Its assertion on the priorities holds throughout exactly
    when no node of the tree has a child of larger priority, and then
    [maximum_depth_found] is the height of the tree less one (zero for the
    empty tree); otherwise the assertion fails. *)
Theorem verify_self_dfs_correct (c : Treap) (t : tree) :
  represents c t → prio_le t positive_infinity → Z.of_nat (size t) ≤ INT_MAX →
  ∃ fuel0, ∀ fuel, (fuel0 ≤ fuel)%nat →
    ∃ res, verify_self_dfs fuel c = Ok res
      ∧ (heap_ord t → res = Some (Z.max 0 (Z.of_nat (height t) - 1)))
      ∧ (¬ heap_ord t → res = None).
Proof.
  intros (Hroot & Hlay & _) Hinf Hmax.
  exists (2 * size t + 2)%nat. intros fuel Hfuel.
  destruct (verify_self_dfs_loop_spec fuel [(0, positive_infinity, t)] (store c) 0)
    as (res & Hres & Hok & Hback).
  - by constructor.
  - constructor; [simpl; lia|constructor].
  - simpl. lia.
  - exists res. unfold verify_self_dfs. rewrite Hroot. split_and!.
    + exact Hres.
    + intros Hord. rewrite Hok; [|by repeat constructor].
      simpl. by destruct t.
    + intros Hnot. destruct res as [d|]; [|done]. exfalso. apply Hnot.
      pose proof (Hback d eq_refl) as Hall.
      apply Forall_cons in Hall as [[_ Hord] _]. exact Hord.
Qed.

(** ** upsert of any key *)







(** ** upsert of a new key followed by remove *)



(** ** The container as a finite map *)







(** ** remove and the storage *)


(** ** remove_all a second time *)

(** X13 ([remove_all] twice, as when the destructor runs after a call of
    [remove_all]): on a container that holds a tree with at least one node,
    [remove_all] returns, and every further [remove_all] on the container it
    leaves reads the released root node, whatever the fuel: undefined
    behaviour. *)
Theorem remove_all_twice_faults (c : Treap) (t : tree) :
  represents c t → t ≠ Leaf →
  ∃ fuel0, ∀ fuel, (fuel0 ≤ fuel)%nat →
    ∃ c', remove_all fuel c = Ok c'
      ∧ _root c' = _root c ∧ (∃ a, _root c' = Some a ∧ store c' !! a = None)
      ∧ ∀ fuel', remove_all (S fuel') c' = Fault.
Proof.
  intros Hrep Hne. exists (2 * size t + 2)%nat. intros fuel Hfuel.
  destruct (remove_all_spec c t fuel Hrep) as (h' & Hrm & Hh'); [lia|].
  destruct Hrep as (Hroot & _ & _).
  destruct t as [|a p k v l r]; [done|]. simpl in Hroot.
  assert (h' !! a = None) as Ha.
  { rewrite Hh'. destruct (decide (a ∈ addrs (Node a p k v l r))) as [|Hnot]; [done|].
    exfalso. apply Hnot. simpl. apply elem_of_app. right. by left. }
  eexists. split; [exact Hrm|]. cbn [_root store]. split_and!.
  - done.
  - by exists a.
  - intros fuel'. unfold remove_all. cbn [_root store]. rewrite Hroot.
    cbn [remove_all_loop]. unfold load. by rewrite Ha.
Qed.

(** ** The bounded traversal over all keys *)

Lemma range_addrs_all (from to : K) (t : tree) :
  Forall (in_range from to) (keys t) → range_addrs from to t = addrs t.
Proof.
  induction t as [|a p k v l IHl r IHr]; simpl; [done|].
  rewrite Forall_app, Forall_cons. intros (Hl & Hk & Hr).
  rewrite IHl, IHr by done. by destruct (decide (in_range from to k)).
Qed.

(** X14 ([visit_range_in_order] and [visit_in_order]): on a container that
    satisfies the invariants, when every key of the tree is at or above
    [from] and below [to], the bounded traversal returns what
    [visit_in_order] returns, for any visitor. *)
Theorem visit_range_in_order_whole (c : Treap) (t : tree) (from to : K) :
  valid c t → Forall (λ k, 0 ≤ cmp k from ∧ cmp k to < 0) (keys t) →
  ∃ fuel0, ∀ fuel, (fuel0 ≤ fuel)%nat →
    ∀ (A : Type) (f : A → loc → result A) (acc : A),
      visit_range_in_order f fuel c from to acc = visit_in_order f fuel c acc
      ∧ visit_in_order f fuel c acc = visit_all f acc (addrs t).
Proof using cmp_inst cmp_ok.
  intros (Hrep & Hbst & _ & _) Hall.
  exists (size t + 2)%nat. intros fuel Hfuel A f acc.
  rewrite (visit_range_in_order_spec f c t from to acc fuel Hrep Hbst Hfuel).
  rewrite (visit_in_order_spec f c t acc fuel Hrep Hfuel).
  by rewrite range_addrs_all.
Qed.

End TreapProofs.

(** * The instance with integer keys *)

#[global] Instance Z_cmp_contract : ComparatorContract Z.
Proof.
  split; unfold cmp, Z_cmp.
  - intros a b. destruct (Z.compare_spec a b); split; (lia || done).
  - intros a b. destruct (Z.compare_spec a b), (Z.compare_spec b a); lia.
  - intros a b c. destruct (Z.compare_spec a b), (Z.compare_spec b c),
      (Z.compare_spec a c); lia.
Qed.

#[global] Instance next_free_contract : AllocatorContract Z Z.
Proof.
  intros h. apply not_elem_of_dom. unfold allocate, next_free. apply is_fresh.
Qed.

Lemma demo_valid : valid demo demo_tree.
Proof.
  split; [|split_and!].
  - split_and!; [done|by vm_compute|].
    apply (bool_decide_unpack _). by vm_compute.
  - simpl. split_and!; repeat constructor.
  - simpl. lia.
  - done.
Qed.

(** The example of the specification: over the keys 10, 20 and 30,
    [closest_leq 25] is the node of 20, [closest_leq 5] is [nullptr] and
    [closest_leq 20] is the node of 20. *)
Example closest_leq_demo :
  closest_leq 3 demo 25 = Ok (Some 1%positive)
  ∧ closest_leq 3 demo 5 = Ok None
  ∧ closest_leq 3 demo 20 = Ok (Some 1%positive)
  ∧ demo_store !! 1%positive
    = Some (mk_TreapNode 90 20 200 (Some 2%positive) (Some 3%positive)).
Proof. split_and!; by vm_compute. Qed.

Lemma range_demo_valid : valid range_demo range_tree.
Proof.
  split; [|split_and!].
  - split_and!; [done|by vm_compute|].
    apply (bool_decide_unpack _). by vm_compute.
  - simpl. split_and!; repeat constructor.
  - simpl. lia.
  - done.
Qed.

Example range_demo_built :
  run 8
    [Upsert 5 50; Upsert 10 100; Upsert 20 200; Upsert 30 300; Upsert 40 400]
    (Treap_new ∅ 42)
  = Ok range_demo.
Proof. vm_compute. reflexivity. Qed.


(** * The properties at concrete inputs *)

(** C1 at a container with one node: after [remove_all], [_node_count] is
    zero and the node is released, but [_root] still holds the address of the
    released node, so the in-order traversal and a following [upsert]
    dereference a dangling pointer. *)
Theorem remove_all_keeps_root :
  ∃ c1 c2 : Treap Z Z,
    upsert 2 (Treap_new ∅ 42) 10 100 = Ok c1
    ∧ remove_all 4 c1 = Ok c2
    ∧ _node_count c2 = 0
    ∧ _root c1 = Some 1%positive ∧ _root c2 = Some 1%positive
    ∧ store c2 !! 1%positive = None
    ∧ (∀ fuel, visit_in_order record_node (S (S fuel)) c2 [] = Fault)
    ∧ (∀ fuel k v, upsert (S fuel) c2 k v = Fault).
Proof.
  eexists _, _. split; [by vm_compute|]. split; [by vm_compute|].
  split_and!; try done.
Qed.


(** C4 at the keys 10, 20 and 30 and the key 25, which is not among them:
    the result is a node with the key 20. *)
Lemma closest_leq_correct_witness :
  ∃ fuel a n, closest_leq fuel demo 25 = Ok (Some a)
              ∧ store demo !! a = Some n ∧ _key n = 20.
Proof.
  destruct (closest_leq_correct demo demo_tree 25 demo_valid) as (fuel0 & Hall).
  destruct (Hall fuel0 (le_n fuel0)) as (res & Hres & _ & Hbelow & _).
  destruct (Hbelow ltac:(by_compute) 20) as (a & n & -> & _ & Hn & Hkey).
  - by_compute.
  - by vm_compute.
  - intros x Hx Hlt. simpl in Hx. unfold key_lt, cmp, Z_cmp in *.
    repeat (apply elem_of_cons in Hx as [->|Hx]); [by right|by left|done|].
    by apply elem_of_nil in Hx.
  - by exists fuel0, a, n.
Defined.





(** C8 at the example of the specification: over the keys 5, 10, 20, 30 and
    40, the bounds 10 and 30 give the nodes of 10 and 20, in this order. *)
Lemma visit_range_in_order_correct_witness :
  ∃ fuel0, ∀ fuel, (fuel0 ≤ fuel)%nat →
    visit_range_in_order record_node fuel range_demo 10 30 []
    = Ok [2%positive; 3%positive]
    ∧ range_store !! 2%positive
      = Some (mk_TreapNode 197491923327988 10 100 (Some 1%positive) None)
    ∧ range_store !! 3%positive
      = Some (mk_TreapNode 259172689157871 20 200 (Some 2%positive) (Some 4%positive)).
Proof.
  destruct (visit_range_in_order_correct range_demo range_tree 10 30
              range_demo_valid) as (fuel0 & Hall).
  exists fuel0. intros fuel Hfuel.
  destruct (Hall fuel Hfuel) as (_ & Hvisit & _).
  split_and!; [exact Hvisit|reflexivity|reflexivity].
Defined.



(** C9 at that store: the traversal sees the key 5 before the key 1, and
    [failed] is [false] when it ends. *)
Example verify_self_accepts_unsorted :
  visit_in_order record_node 4 unsorted [] = Ok [2%positive; 1%positive]
  ∧ verify_self_in_order 4 unsorted
    = Ok (mk_key_check (Some 1%positive) false 2).
Proof. split; by vm_compute. Qed.

(** X1 at the keys 10, 20 and 30: [find 10] is the node with the value 100,
    [find 25] is [nullptr]. *)
Lemma find_correct_witness :
  ∃ fuel a n,
    find fuel (store demo) (_root demo) 10 = Ok (Some a)
    ∧ store demo !! a = Some n ∧ _key n = 10 ∧ _value n = 100
    ∧ find fuel (store demo) (_root demo) 25 = Ok None.
Proof.
  destruct (find_correct demo demo_tree 10 demo_valid) as (fuel0 & Hall).
  destruct (find_correct demo demo_tree 25 demo_valid) as (fuel1 & Hall').
  destruct (Hall (fuel0 `max` fuel1)%nat) as (res & Hf & Hin & _); [lia|].
  destruct (Hall' (fuel0 `max` fuel1)%nat) as (res' & Hf' & _ & Hout & _); [lia|].
  destruct (Hin 100) as (a & n & -> & _ & Hn & Hk & Hv); [by_compute|].
  rewrite Hout in Hf' by by_compute.
  by exists (fuel0 `max` fuel1)%nat, a, n.
Defined.

(** X2 at the keys 5, 10, 20, 30 and 40: the traversal visits the five
    nodes in the order of their keys. *)
Lemma visit_in_order_correct_witness :
  ∃ fuel,
    visit_in_order record_node fuel range_demo []
    = Ok [1%positive; 2%positive; 3%positive; 4%positive; 5%positive].
Proof.
  destruct (visit_in_order_correct range_demo range_tree range_demo_valid)
    as (fuel0 & Hall).
  destruct (Hall fuel0 (le_n fuel0)) as (_ & Hvisit & _).
  exists fuel0. exact Hvisit.
Defined.

(** X3 at the keys 5, 10, 20, 30 and 40 with the bounds 30 and 10. *)
Lemma visit_range_in_order_empty_interval_witness :
  ∃ fuel, visit_range_in_order record_node fuel range_demo 30 10 [] = Ok [].
Proof.
  destruct (visit_range_in_order_empty_interval range_demo range_tree 30 10
              range_demo_valid ltac:(by vm_compute)) as (fuel0 & Hall).
  exists fuel0. apply (Hall fuel0 (le_n fuel0)).
Defined.

(** X4 at the keys 10, 20 and 30: the three nodes are released. *)
Lemma remove_all_releases_nodes_witness :
  ∃ fuel c',
    remove_all fuel demo = Ok c' ∧ _node_count c' = 0
    ∧ store c' !! 1%positive = None ∧ store c' !! 2%positive = None
    ∧ store c' !! 3%positive = None.
Proof.
  destruct demo_valid as (Hrep & _).
  destruct (remove_all_releases_nodes demo demo_tree Hrep) as (fuel0 & Hall).
  destruct (Hall fuel0 (le_n fuel0)) as (c' & Hrm & Hcount & _ & Hgone & _).
  exists fuel0, c'. split_and!; [done|done| | |]; apply Hgone; by_compute.
Defined.



(** X8 at the keys 10, 20 and 30, whose tree has height two: the assertion
    on the priorities holds and the largest depth is one. *)
Lemma verify_self_dfs_correct_witness :
  ∃ fuel, verify_self_dfs fuel demo = Ok (Some 1).
Proof.
  destruct demo_valid as (Hrep & _ & Hord & _).
  destruct (verify_self_dfs_correct demo demo_tree Hrep) as (fuel0 & Hall).
  - by vm_compute.
  - by vm_compute.
  - destruct (Hall fuel0 (le_n fuel0)) as (res & Hres & Hok & _).
    exists fuel0. rewrite Hres. f_equal. by apply Hok.
Defined.

(** X8 at the store [inverted]: the assertion on the priorities fails at
    the left child of the root. *)
Example verify_self_dfs_rejects_inverted :
  verify_self_dfs 4 inverted = Ok None.
Proof. by vm_compute. Qed.





(** X13 at the keys 10, 20 and 30. *)
Lemma remove_all_twice_faults_witness :
  ∃ fuel c', remove_all fuel demo = Ok c' ∧ ∀ fuel', remove_all (S fuel') c' = Fault.
Proof.
  destruct demo_valid as (Hrep & _).
  destruct (remove_all_twice_faults demo demo_tree Hrep ltac:(done)) as (fuel0 & Hall).
  destruct (Hall fuel0 (le_n fuel0)) as (c' & Hrm & _ & _ & Hfault).
  by exists fuel0, c'.
Defined.

(** X14 at the keys 5, 10, 20, 30 and 40 with the bounds 5 and 41. *)
Lemma visit_range_in_order_whole_witness :
  ∃ fuel,
    visit_range_in_order record_node fuel range_demo 5 41 []
    = visit_in_order record_node fuel range_demo []
    ∧ visit_in_order record_node fuel range_demo []
      = Ok [1%positive; 2%positive; 3%positive; 4%positive; 5%positive].
Proof.
  destruct (visit_range_in_order_whole range_demo range_tree 5 41 range_demo_valid)
    as (fuel0 & Hall).
  - simpl. repeat constructor; by vm_compute.
  - exists fuel0.
    destruct (Hall fuel0 (le_n fuel0) _ record_node []) as [Heq Hvisit].
    split; [exact Heq|]. rewrite Hvisit. reflexivity.
Defined.
